(** * LFU caching decorator of [homework_1/caching_lfu.py]

    A shallow embedding of [lfu_cache], its [decorator] and its [wrapper],
    together with the properties of the cache store they maintain.

    Python objects are modelled by [pyval]; the two dictionaries [cache] and
    [usage] by association lists in insertion order (a Python [dict] iterates
    in insertion order, and [min(usage, key=usage.get)] depends on it); the
    body of [wrapper] by a state-and-exception monad over the pair of
    dictionaries.  The wrapped function is a deterministic function of its
    arguments that does not touch the cache itself; every invocation is
    recorded in a ghost log [calls]. *)

From Stdlib Require Import ZArith String List Sorted.
From stdpp Require Import base decidable option list sorting strings.

Local Open Scope Z_scope.
Set Warnings "-register-all,-clear-no-such-hyp".

(** ** Python values *)

(** The fragment of Python objects used as arguments and results: [None],
    integers, strings, tuples and lists.  On this fragment Python's [==] is
    structural equality ([bool] and [float], which compare equal to
    integers, are left out). *)
Inductive pyval : Type :=
  | PNone
  | PInt (z : Z)
  | PStr (s : string)
  | PTuple (items : list pyval)
  | PList (items : list pyval).

Global Instance pyval_eq_dec : EqDecision pyval.
Proof.
  refine (fix go (x y : pyval) {struct x} : Decision (x = y) :=
    let _ : EqDecision pyval := @go in
    match x, y with
    | PNone, PNone => left _
    | PInt a, PInt b => cast_if (decide (a = b))
    | PStr a, PStr b => cast_if (decide (a = b))
    | PTuple a, PTuple b => cast_if (decide (a = b))
    | PList a, PList b => cast_if (decide (a = b))
    | _, _ => right _
    end); congruence.
Defined.

(** [hash(v)] succeeds on [None], integers, strings and tuples of hashable
    values; a [list] is unhashable. *)
Fixpoint hashable (v : pyval) : bool :=
  match v with
  | PNone | PInt _ | PStr _ => true
  | PTuple items => forallb hashable items
  | PList _ => false
  end.

(** Exceptions: the built-in ones the wrapper itself can raise, and any
    other class, named, for what the wrapped function raises. *)
Inductive pyexn : Type :=
  | TypeError
  | ValueError
  | KeyError
  | OtherError (cls : string).

Global Instance pyexn_eq_dec : EqDecision pyexn.
Proof. solve_decision. Defined.

Inductive outcome (A : Type) : Type :=
  | Return (a : A)
  | Raise (e : pyexn).
Arguments Return {A} a.
Arguments Raise {A} e.

(** ** Dictionaries in insertion order *)

Section dict.
Context {K V : Type} {eqK : EqDecision K}.

(** [d.get(k)] *)
Fixpoint dict_get (d : list (K * V)) (k : K) : option V :=
  match d with
  | [] => None
  | (k', v) :: d' => if decide (k = k') then Some v else dict_get d' k
  end.

(** [k in d] *)
Definition dict_contains (d : list (K * V)) (k : K) : bool :=
  match dict_get d k with Some _ => true | None => false end.

(** [d[k] = v]: an existing key keeps its position, a new key goes last. *)
Fixpoint dict_setitem (d : list (K * V)) (k : K) (v : V) : list (K * V) :=
  match d with
  | [] => [(k, v)]
  | (k', v') :: d' =>
      if decide (k = k') then (k', v) :: d'
      else (k', v') :: dict_setitem d' k v
  end.

(** The dictionary left by [d.pop(k)] when [k] is present. *)
Fixpoint dict_delete (d : list (K * V)) (k : K) : list (K * V) :=
  match d with
  | [] => []
  | (k', v') :: d' =>
      if decide (k = k') then d' else (k', v') :: dict_delete d' k
  end.

(** The keys left by [pop], and the keys after an assignment, as
    functions of the keys alone. *)
Fixpoint remove_key (k : K) (l : list K) : list K :=
  match l with
  | [] => []
  | k' :: l' => if decide (k = k') then l' else k' :: remove_key k l'
  end.

Definition add_key (k : K) (l : list K) : list K :=
  if decide (k ∈ l) then l else l ++ [k].

(** Iterating a dictionary yields its keys in insertion order. *)
Definition dict_keys (d : list (K * V)) : list K := d.*1.

(** [len(d)] *)
Definition dict_len (d : list (K * V)) : Z := Z.of_nat (length d).
End dict.

(** ** [min(usage, key=usage.get)] *)

(** [min] keeps the first element seen and replaces it only by one whose
    key is strictly smaller.  For a key [k] of the dictionary,
    [usage.get(k)] is the counter stored with [k]. *)
Fixpoint min_scan (best : pyval * Z) (rest : list (pyval * Z)) : pyval * Z :=
  match rest with
  | [] => best
  | (k, n) :: rest' =>
      if n <? best.2 then min_scan (k, n) rest' else min_scan best rest'
  end.

(** [None] stands for the [ValueError] that [min] raises on an empty
    dictionary. *)
Definition min_usage (usage : list (pyval * Z)) : option pyval :=
  match usage with
  | [] => None
  | first :: rest => Some (min_scan first rest).1
  end.

(** ** The cache key *)

(** [kwargs] is a dictionary from names to values, in call-site order; its
    names are pairwise distinct. *)
Definition kwargs_t : Type := list (string * pyval).

(** Order of [kwargs.items()] under [sorted]: tuples are compared
    lexicographically, and as the names differ the comparison is decided
    by the names. *)
Definition item_le (x y : string * pyval) : Prop :=
  String.leb x.1 y.1 = true.

Global Instance item_le_dec x y : Decision (item_le x y).
Proof. unfold item_le. apply _. Defined.

Definition sorted_items (kwargs : kwargs_t) : kwargs_t :=
  merge_sort item_le kwargs.

Definition item_tuple (it : string * pyval) : pyval :=
  PTuple [PStr it.1; it.2].

(** [key = (args, tuple(sorted(kwargs.items())))] *)
Definition make_key (args : list pyval) (kwargs : kwargs_t) : pyval :=
  PTuple [PTuple args; PTuple (item_tuple <$> sorted_items kwargs)].

(** ** State and exceptions *)

(** The two dictionaries closed over by [wrapper], and the ghost log of
    the invocations of the wrapped function (oldest first). *)
Record lfu_state : Type := LfuState {
  cache : list (pyval * pyval);
  usage : list (pyval * Z);
  calls : list (list pyval * kwargs_t)
}.

(** A statement either returns or raises; the mutations done before an
    exception stay. *)
Definition M (A : Type) : Type := lfu_state → outcome A * lfu_state.

Global Instance M_ret : MRet M := λ A a s, (Return a, s).

Global Instance M_bind : MBind M := λ A B f m s,
  match m s with
  | (Return a, s') => f a s'
  | (Raise e, s') => (Raise e, s')
  end.

Definition raise {A : Type} (e : pyexn) : M A := λ s, (Raise e, s).

(** Every dictionary operation hashes its key first. *)
Definition hashed {A : Type} (k : pyval) (m : M A) : M A :=
  if hashable k then m else raise TypeError.

Definition of_option {A : Type} (e : pyexn) (o : option A) : M A :=
  match o with Some a => mret a | None => raise e end.

Definition set_cache (c : list (pyval * pyval)) : M unit :=
  λ s, (Return (), LfuState c (usage s) (calls s)).

Definition set_usage (u : list (pyval * Z)) : M unit :=
  λ s, (Return (), LfuState (cache s) u (calls s)).

(** [key in cache] *)
Definition cache_contains (k : pyval) : M bool :=
  hashed k (λ s, (Return (dict_contains (cache s) k), s)).

(** [cache[key]] *)
Definition cache_getitem (k : pyval) : M pyval :=
  hashed k (λ s, of_option KeyError (dict_get (cache s) k) s).

(** [usage[key]] *)
Definition usage_getitem (k : pyval) : M Z :=
  hashed k (λ s, of_option KeyError (dict_get (usage s) k) s).

(** [cache[key] = v] *)
Definition cache_setitem (k v : pyval) : M unit :=
  hashed k (λ s, set_cache (dict_setitem (cache s) k v) s).

(** [usage[key] = n] *)
Definition usage_setitem (k : pyval) (n : Z) : M unit :=
  hashed k (λ s, set_usage (dict_setitem (usage s) k n) s).

(** [cache.pop(key)] *)
Definition cache_pop (k : pyval) : M pyval :=
  hashed k (λ s,
    (v ← of_option KeyError (dict_get (cache s) k);
     set_cache (dict_delete (cache s) k);; mret v) s).

(** [usage.pop(key)] *)
Definition usage_pop (k : pyval) : M Z :=
  hashed k (λ s,
    (n ← of_option KeyError (dict_get (usage s) k);
     set_usage (dict_delete (usage s) k);; mret n) s).

(** [len(cache)] *)
Definition cache_len : M Z := λ s, (Return (dict_len (cache s)), s).

(** [min(usage, key=usage.get)] *)
Definition usage_min : M pyval := λ s, of_option ValueError (min_usage (usage s)) s.

(** ** The decorator *)

Definition func_t : Type := list pyval → kwargs_t → outcome pyval.

Section wrapper.
Variable max_limit : Z.
Variable func : func_t.

(** The call of [func] on the unpacked [args] and [kwargs]. *)
Definition call_func (args : list pyval) (kwargs : kwargs_t) : M pyval :=
  λ s, (func args kwargs,
        LfuState (cache s) (usage s) (calls s ++ [(args, kwargs)])).

Definition wrapper (args : list pyval) (kwargs : kwargs_t) : M pyval :=
  let key := make_key args kwargs in
  found ← cache_contains key;
  if found : bool then
    n ← usage_getitem key;
    usage_setitem key (n + 1);;
    cache_getitem key
  else
    result ← call_func args kwargs;
    size ← cache_len;
    (if size >=? max_limit then
       least_used_key ← usage_min;
       cache_pop least_used_key;;
       usage_pop least_used_key;;
       mret ()
     else mret ());;
    cache_setitem key result;;
    usage_setitem key 1;;
    mret result.
End wrapper.

(** [cache = {}] and [usage = {}] *)
Definition empty_state : lfu_state := LfuState [] [] [].

(** The state after the wrapped function was invoked. *)
Definition logged (s : lfu_state) (args : list pyval) (kwargs : kwargs_t) : lfu_state :=
  LfuState (cache s) (usage s) (calls s ++ [(args, kwargs)]).

(** What [decorator(func)] returns: the wrapper, with the (empty)
    dictionaries it exposes as [wrapper.cache] and [wrapper.usage]. *)
Record cached : Type := Cached {
  call : list pyval → kwargs_t → M pyval;
  store : lfu_state
}.

Definition decorator (max_limit : Z) (func : func_t) : cached :=
  Cached (wrapper max_limit func) empty_state.

(** [lfu_cache(max_limit)] returns the decorator; it inspects [max_limit]
    in no way. *)
Definition lfu_cache (max_limit : Z) : outcome (func_t → cached) :=
  Return (decorator max_limit).

(** A caller making the calls [cs] one after the other, going on after a
    call that raised. *)
Definition run_calls (max_limit : Z) (func : func_t)
    (cs : list (list pyval * kwargs_t)) (s : lfu_state) : lfu_state :=
  foldl (λ s c, (wrapper max_limit func c.1 c.2 s).2) s cs.

(** The states of a cache built by [lfu_cache(max_limit)(func)]. *)
Inductive reachable (max_limit : Z) (func : func_t) : lfu_state → Prop :=
  | reachable_empty : reachable max_limit func empty_state
  | reachable_call s args kwargs :
      reachable max_limit func s →
      reachable max_limit func (wrapper max_limit func args kwargs s).2.

(** The representation invariant of the pair of dictionaries: no key
    occurs twice in a dictionary, the keys are hashable, and both
    dictionaries hold the same keys in the same order. *)
Definition consistent (s : lfu_state) : Prop :=
  dict_keys (cache s) = dict_keys (usage s) ∧
  NoDup (dict_keys (usage s)) ∧
  Forall (λ k, hashable k = true) (dict_keys (usage s)).

(** A sample wrapped function, [lambda n: 100 // n]: it raises
    [ZeroDivisionError] at [0]. *)
Definition quotient : func_t := λ args kwargs,
  match args, kwargs with
  | [PInt n], [] =>
      if decide (n = 0) then Raise (OtherError "ZeroDivisionError")
      else Return (PInt (100 `div` n))
  | _, _ => Raise TypeError
  end.

Definition kw (name : string) (n : Z) : string * pyval := (name, PInt n).

(** ** Notions used in the statements *)

(** [k] has an entry in the cache. *)
Definition resident (s : lfu_state) (k : pyval) : Prop :=
  k ∈ dict_keys (cache s).

(** [k] is the first key, in insertion order, among the keys whose counter
    is the smallest: every key before it has a strictly larger counter,
    every key after it a larger or equal one. *)
Definition first_least_used (u : list (pyval * Z)) (k : pyval) : Prop :=
  ∃ n before after,
    u = before ++ (k, n) :: after ∧
    Forall (λ x, n < x.2) before ∧ Forall (λ x, n ≤ x.2) after.

Global Instance resident_dec s k : Decision (resident s k).
Proof. unfold resident. apply _. Defined.

(** The step from [s] to [s'] evicted [k]. *)
Definition evicts (s s' : lfu_state) (k : pyval) : Prop :=
  resident s k ∧ ¬ resident s' k.

(** Both dictionaries are empty. *)
Definition vacant (s : lfu_state) : Prop := cache s = [] ∧ usage s = [].

(** How many times the log records an invocation with the key [key]. *)
Definition invocations (key : pyval) (log : list (list pyval * kwargs_t)) : nat :=
  length (filter (λ c, make_key c.1 c.2 = key) log).

(** A second sample function, [lambda *args, **kwargs: sum(args) +
    sum(kwargs.values())]. *)
Fixpoint sum_ints (vs : list pyval) : option Z :=
  match vs with
  | [] => Some 0
  | PInt n :: vs' => (λ m, n + m) <$> sum_ints vs'
  | _ => None
  end.

Definition total : func_t := λ args kwargs,
  match sum_ints (args ++ kwargs.*2) with
  | Some n => Return (PInt n)
  | None => Raise TypeError
  end.

(** ** The six ways a call can go *)

Inductive call_case (max_limit : Z) (func : func_t) (s : lfu_state)
    (args : list pyval) (kwargs : kwargs_t) : outcome pyval * lfu_state → Prop :=
  | case_unhashable :
      hashable (make_key args kwargs) = false →
      call_case max_limit func s args kwargs (Raise TypeError, s)
  | case_hit v n :
      hashable (make_key args kwargs) = true →
      dict_get (cache s) (make_key args kwargs) = Some v →
      dict_get (usage s) (make_key args kwargs) = Some n →
      call_case max_limit func s args kwargs
        (Return v,
         LfuState (cache s)
           (dict_setitem (usage s) (make_key args kwargs) (n + 1)) (calls s))
  | case_raise e :
      hashable (make_key args kwargs) = true →
      dict_get (cache s) (make_key args kwargs) = None →
      func args kwargs = Raise e →
      call_case max_limit func s args kwargs (Raise e, logged s args kwargs)
  | case_room r :
      hashable (make_key args kwargs) = true →
      dict_get (cache s) (make_key args kwargs) = None →
      func args kwargs = Return r →
      dict_len (cache s) < max_limit →
      call_case max_limit func s args kwargs
        (Return r,
         LfuState (dict_setitem (cache s) (make_key args kwargs) r)
           (dict_setitem (usage s) (make_key args kwargs) 1)
           (calls s ++ [(args, kwargs)]))
  | case_empty r :
      hashable (make_key args kwargs) = true →
      dict_get (cache s) (make_key args kwargs) = None →
      func args kwargs = Return r →
      max_limit ≤ dict_len (cache s) →
      usage s = [] →
      call_case max_limit func s args kwargs
        (Raise ValueError, logged s args kwargs)
  | case_evict r k v n :
      hashable (make_key args kwargs) = true →
      dict_get (cache s) (make_key args kwargs) = None →
      func args kwargs = Return r →
      max_limit ≤ dict_len (cache s) →
      min_usage (usage s) = Some k →
      dict_get (cache s) k = Some v →
      dict_get (usage s) k = Some n →
      call_case max_limit func s args kwargs
        (Return r,
         LfuState
           (dict_setitem (dict_delete (cache s) k) (make_key args kwargs) r)
           (dict_setitem (dict_delete (usage s) k) (make_key args kwargs) 1)
           (calls s ++ [(args, kwargs)])).

(** ** Further notions on the cache *)

(** Every cached value is one that [func] returned for a logged invocation
    with that key. *)
Definition sound (func : func_t) (s : lfu_state) : Prop :=
  ∀ k v, dict_get (cache s) k = Some v →
    ∃ c, c ∈ calls s ∧ make_key c.1 c.2 = k ∧ func c.1 c.2 = Return v.

(** [func] gives the same outcome to calls that build the same key. *)
Definition respects_keys (func : func_t) : Prop :=
  ∀ args kwargs args' kwargs',
    make_key args kwargs = make_key args' kwargs' →
    func args kwargs = func args' kwargs'.

(** ** [fetch_url] and [main] *)

(** [content[:n]] on a byte string: a negative [n] counts from the end,
    and the bounds are clipped to the string. *)
Definition slice_to (n : Z) (content : string) : string :=
  String.substring 0
    (if 0 <=? n then Z.to_nat n
     else (String.length content - Z.to_nat (- n))%nat)
    content.

(** The truth value of an object in a condition. *)
Definition truthy (v : pyval) : bool :=
  match v with
  | PNone => false
  | PInt z => negb (z =? 0)
  | PStr s => negb (String.eqb s EmptyString)
  | PTuple items | PList items =>
      match items with [] => false | _ => true end
  end.

(** Every keyword is the name of a parameter not yet bound. *)
Definition keywords_among (names : list string) (kwargs : kwargs_t) : bool :=
  forallb (λ it, bool_decide (it.1 ∈ names)) kwargs.

(** Binding a call to the signature [(url, first_n=100)]: too many
    positional arguments, an unknown keyword, a parameter given twice or a
    missing [url] raise [TypeError]. *)
Definition bind_fetch_url (args : list pyval) (kwargs : kwargs_t)
    : outcome (pyval * pyval) :=
  let first_n := default (PInt 100) (dict_get kwargs "first_n") in
  match args with
  | [] =>
      if keywords_among ["url"; "first_n"] kwargs then
        match dict_get kwargs "url" with
        | Some url => Return (url, first_n)
        | None => Raise TypeError
        end
      else Raise TypeError
  | [url] =>
      if keywords_among ["first_n"] kwargs then Return (url, first_n)
      else Raise TypeError
  | [url; n] =>
      if keywords_among [] kwargs then Return (url, n) else Raise TypeError
  | _ => Raise TypeError
  end.

(** What is shown by one [print]: its arguments, in order. *)
Inductive shown : Type :=
  | Text (s : string)
  | Obj (v : pyval)
  | CacheDict (d : list (pyval * pyval))
  | UsageDict (d : list (pyval * Z)).

Definition test_url : string := "https://www.google.com".

Section fetch_url.
(** [requests.get(url).content], or the exception the request raises. *)
Variable requests_get : pyval → outcome string.

(** The undecorated function.  A [bytes] result is carried by [PStr]; the
    cache does not look into results. *)
Definition fetch_url_func : func_t := λ args kwargs,
  match bind_fetch_url args kwargs with
  | Raise e => Raise e
  | Return (url, first_n) =>
      match requests_get url with
      | Raise e => Raise e
      | Return content =>
          if truthy first_n then
            match first_n with
            | PInt n => Return (PStr (slice_to n content))
            | _ => Raise TypeError
            end
          else Return (PStr content)
      end
  end.

(** [@lfu_cache(max_limit=64)] *)
Definition fetch_url : cached := decorator 64 fetch_url_func.

(** [main], run on the state [s] of the cache of [fetch_url]: its outcome,
    the state it leaves and the lines it printed. *)
Definition main (s : lfu_state) : outcome unit * lfu_state * list (list shown) :=
  match call fetch_url [PStr test_url] [("first_n", PInt 150)] s with
  | (Raise e, s1) => (Raise e, s1, [])
  | (Return content, s1) =>
      let fetched :=
        [[Text "Fetched content (first 150 bytes):"]; [Obj content]] in
      match call fetch_url [PStr test_url] [("first_n", PInt 150)] s1 with
      | (Raise e, s2) => (Raise e, s2, fetched)
      | (Return cached_content, s2) =>
          (Return (), s2,
           fetched ++
           [[Text "Cached content (first 150 bytes):"]; [Obj cached_content];
            [Text "Cache keys:"; CacheDict (cache s2)];
            [Text "Usage counts:"; UsageDict (usage s2)]])
      end
  end.
End fetch_url.

(** ** [measure_memory] and [generate_list] ([homework_1/memory_measure.py]) *)

(** One line printed by the decorator: the name of the function and the
    two byte counts read from [tracemalloc] (the conversion to megabytes
    with six decimals is a matter of floating point and is not modelled). *)
Record report : Type := Report {
  report_name : string;
  report_current : Z;
  report_peak : Z
}.

(** Whether [tracemalloc] is tracing, and what was printed so far. *)
Record tracer : Type := Tracer {
  tracing : bool;
  printed : list report
}.

Section measure_memory.
(** [func.__name__] *)
Variable name : string.
Variable func : func_t.
(** What [tracemalloc.get_traced_memory()] returns after [func] ran on the
    given arguments. *)
Variable traced_memory : list pyval → kwargs_t → Z * Z.

(** The [wrapper] of [measure_memory]: [start], the call, the reading,
    [stop], the [print], in this order; an exception of [func] leaves the
    body at the call. *)
Definition measure_memory (args : list pyval) (kwargs : kwargs_t) (t : tracer)
    : outcome pyval * tracer :=
  let started := Tracer true (printed t) in
  match func args kwargs with
  | Raise e => (Raise e, started)
  | Return result =>
      let reading := traced_memory args kwargs in
      let stopped := Tracer false (printed started) in
      (Return result,
       Tracer (tracing stopped)
         (printed stopped ++ [Report name reading.1 reading.2]))
  end.
End measure_memory.

(** [[i for i in range(n)]]: [range] accepts an integer only, and is empty
    for a non-positive one. *)
Definition generate_list_body (n : pyval) : outcome pyval :=
  match n with
  | PInt z => Return (PList (PInt <$> seqZ 0 z))
  | _ => Raise TypeError
  end.

(** [generate_list], a function of one parameter [n]. *)
Definition generate_list_func : func_t := λ args kwargs,
  match args, kwargs with
  | [n], [] => generate_list_body n
  | [], [(name, n)] =>
      if decide (name = "n") then generate_list_body n else Raise TypeError
  | _, _ => Raise TypeError
  end.

(** [@measure_memory def generate_list(n)] *)
Definition generate_list (traced_memory : list pyval → kwargs_t → Z * Z)
    : list pyval → kwargs_t → tracer → outcome pyval * tracer :=
  measure_memory "generate_list" generate_list_func traced_memory.

(** ** [generate_password] ([homework_2/main.py]) *)

(** The character sets of the [string] module. *)
Definition ascii_lowercase : list Ascii.ascii :=
  String.list_ascii_of_string "abcdefghijklmnopqrstuvwxyz".
Definition ascii_uppercase : list Ascii.ascii :=
  String.list_ascii_of_string "ABCDEFGHIJKLMNOPQRSTUVWXYZ".
Definition digits : list Ascii.ascii := String.list_ascii_of_string "0123456789".
(** [string.punctuation]; the double quote is character 34. *)
Definition punctuation : list Ascii.ascii :=
  String.list_ascii_of_string "!" ++ [Ascii.ascii_of_nat 34] ++
  String.list_ascii_of_string "#$%&'()*+,-./:;<=>?@[\]^_`{|}~".

Definition all_chars : list Ascii.ascii :=
  ascii_lowercase ++ ascii_uppercase ++ digits ++ punctuation.

Section random.
(** The generator: its [i]-th raw draw.  A function of the module [random]
    reduces a draw to the range it needs, so that every value of the range
    is the result for some generator; the state is the number of draws
    taken so far. *)
Variable draw : nat → nat.

Definition R (A : Type) : Type := nat → outcome A * nat.

Global Instance R_ret : MRet R := λ A a i, (Return a, i).

Global Instance R_bind : MBind R := λ A B f m i,
  match m i with
  | (Return a, i') => f a i'
  | (Raise e, i') => (Raise e, i')
  end.

Definition fail {A : Type} (e : pyexn) : R A := λ i, (Raise e, i).

(** A number in [range(n)], for a positive [n]. *)
Definition randbelow (n : nat) : R nat := λ i, (Return (draw i `mod` n)%nat, S i).

(** [random.randint(a, b)]: an integer [N] with [a <= N <= b];
    [ValueError] on an empty range. *)
Definition randint (a b : Z) : R Z :=
  if b <? a then fail ValueError
  else k ← randbelow (Z.to_nat (b - a + 1)); mret (a + Z.of_nat k).

(** [random.choice(seq)]: [seq[randbelow(len(seq))]]; [IndexError] on an
    empty sequence. *)
Definition choice {A : Type} (seq : list A) : R A :=
  match seq with
  | [] => fail (OtherError "IndexError")
  | _ =>
      k ← randbelow (length seq);
      match seq !! k with
      | Some x => mret x
      | None => fail (OtherError "IndexError")
      end
  end.

(** [[random.choice(seq) for _ in range(n)]] *)
Fixpoint choices {A : Type} (seq : list A) (n : nat) : R (list A) :=
  match n with
  | O => mret []
  | S n' => x ← choice seq; xs ← choices seq n'; mret (x :: xs)
  end.

(** [x[i], x[j] = x[j], x[i]] *)
Definition swap_items {A : Type} (x : list A) (i j : nat) : R (list A) :=
  match x !! j, x !! i with
  | Some b, Some a => mret (<[j:=a]> (<[i:=b]> x))
  | _, _ => fail (OtherError "IndexError")
  end.

(** The loop of [random.shuffle]: for [i] from [n] down to 1, swap [x[i]]
    with [x[j]] for a random [j <= i]. *)
Fixpoint shuffle_from {A : Type} (n : nat) (x : list A) : R (list A) :=
  match n with
  | O => mret x
  | S n' =>
      j ← randbelow (S n);
      x' ← swap_items x n j;
      shuffle_from n' x'
  end.

(** [random.shuffle(x)] *)
Definition shuffle {A : Type} (x : list A) : R (list A) :=
  shuffle_from (length x - 1) x.

Definition generate_password : R string :=
  len ← randint 10 20;
  c1 ← choice ascii_lowercase;
  c2 ← choice ascii_uppercase;
  c3 ← choice digits;
  c4 ← choice punctuation;
  rest ← choices all_chars (Z.to_nat (len - 4));
  password_chars ← shuffle ([c1; c2; c3; c4] ++ rest);
  mret (String.string_of_list_ascii password_chars).
End random.

(** ** Tactics *)

(** Closed decidable facts are settled by evaluation. *)
Ltac by_evaluation :=
  match goal with
  | |- ?P => apply (@bool_decide_unpack P _); vm_compute; exact I
  end.

Ltac unfold_wrapper :=
  unfold wrapper, cache_contains, usage_getitem, usage_setitem, cache_getitem,
    cache_setitem, cache_pop, usage_pop, cache_len, usage_min, call_func,
    hashed, of_option, set_cache, set_usage, raise,
    mbind, M_bind, mret, M_ret; cbn [cache usage calls].

(** ** Lemmas on dictionaries *)

Section dict_lemmas.
Context {K V : Type} {eqK : EqDecision K}.
Implicit Types (d : list (K * V)) (k : K) (v : V).

Lemma dict_get_None d k : dict_get d k = None ↔ k ∉ dict_keys d.
Proof.
  unfold dict_keys. induction d as [|[k' v'] d IH]; simpl.
  - split; [intros _; apply not_elem_of_nil | done].
  - rewrite not_elem_of_cons. destruct (decide (k = k')) as [->|Hne].
    + split; [done | intros [? _]; done].
    + rewrite IH. split; [done | by intros [_ ?]].
Qed.

Lemma dict_get_Some_elem d k v : dict_get d k = Some v → k ∈ dict_keys d.
Proof.
  intros Hg. destruct (decide (k ∈ dict_keys d)) as [|Hn]; [done|].
  apply dict_get_None in Hn. congruence.
Qed.

Lemma dict_get_is_Some d k : k ∈ dict_keys d → is_Some (dict_get d k).
Proof.
  intros Hin. destruct (dict_get d k) eqn:E; [by eexists|].
  by apply dict_get_None in E.
Qed.

Lemma dict_contains_true d k : dict_contains d k = true ↔ k ∈ dict_keys d.
Proof.
  unfold dict_contains. destruct (dict_get d k) eqn:E.
  - split; [intros _; by eapply dict_get_Some_elem | done].
  - apply dict_get_None in E. split; [done | intros; by exfalso].
Qed.

Lemma dict_contains_false d k : dict_contains d k = false ↔ k ∉ dict_keys d.
Proof.
  rewrite <-dict_contains_true. destruct (dict_contains d k); naive_solver.
Qed.

Lemma dict_get_pair_elem d k v : dict_get d k = Some v → (k, v) ∈ d.
Proof.
  induction d as [|[k' v'] d IH]; simpl; [done|].
  destruct (decide (k = k')) as [->|]; intros Hg.
  - injection Hg as ->. left.
  - right. auto.
Qed.

Lemma dict_get_setitem d k v k' :
  dict_get (dict_setitem d k v) k' =
    if decide (k' = k) then Some v else dict_get d k'.
Proof.
  induction d as [|[k0 v0] d IH]; simpl.
  - by destruct (decide (k' = k)).
  - destruct (decide (k = k0)) as [->|Hne]; simpl.
    + by destruct (decide (k' = k0)).
    + rewrite IH. destruct (decide (k' = k0)) as [->|]; [|done].
      by rewrite decide_False.
Qed.

Lemma dict_get_delete_ne d k k' :
  k' ≠ k → dict_get (dict_delete d k) k' = dict_get d k'.
Proof.
  intros Hne. induction d as [|[k0 v0] d IH]; simpl; [done|].
  destruct (decide (k = k0)) as [->|]; simpl.
  - by rewrite decide_False.
  - by rewrite IH.
Qed.

Lemma add_key_cons k k0 (l : list K) :
  add_key k (k0 :: l) = if decide (k = k0) then k0 :: l else k0 :: add_key k l.
Proof.
  unfold add_key. destruct (decide (k = k0)) as [->|Hne].
  - rewrite decide_True; [done | left].
  - destruct (decide (k ∈ l)) as [Hin|Hnin].
    + rewrite decide_True; [done | by right].
    + rewrite decide_False; [done|]. rewrite elem_of_cons. naive_solver.
Qed.

Lemma dict_keys_setitem d k v :
  dict_keys (dict_setitem d k v) = add_key k (dict_keys d).
Proof.
  unfold dict_keys. induction d as [|[k0 v0] d IH].
  - unfold add_key. rewrite decide_False; [done | apply not_elem_of_nil].
  - cbn [dict_setitem fmap list_fmap fst]. rewrite add_key_cons.
    destruct (decide (k = k0)); [done|].
    cbn [fmap list_fmap fst]. by rewrite IH.
Qed.

Lemma dict_keys_delete d k :
  dict_keys (dict_delete d k) = remove_key k (dict_keys d).
Proof.
  unfold dict_keys. induction d as [|[k0 v0] d IH]; [done|].
  cbn [dict_delete fmap list_fmap fst remove_key].
  destruct (decide (k = k0)); [done|].
  cbn [fmap list_fmap fst]. by rewrite IH.
Qed.

Lemma elem_of_remove_key k k' (l : list K) :
  k' ∈ remove_key k l → k' ∈ l.
Proof.
  induction l as [|k0 l IH]; simpl; [done|].
  destruct (decide (k = k0)); rewrite ?elem_of_cons; naive_solver.
Qed.

Lemma elem_of_remove_key_ne k k' (l : list K) :
  k' ≠ k → k' ∈ l → k' ∈ remove_key k l.
Proof.
  intros Hne. induction l as [|k0 l IH]; simpl; [done|].
  destruct (decide (k = k0)) as [->|]; rewrite ?elem_of_cons; naive_solver.
Qed.

Lemma remove_key_NoDup k (l : list K) : NoDup l → NoDup (remove_key k l).
Proof.
  induction 1 as [|k0 l Hnin Hnd IH]; simpl; [constructor|].
  destruct (decide (k = k0)); [done|].
  constructor; [|done]. intros Hin. by apply Hnin, (elem_of_remove_key k).
Qed.

Lemma not_elem_of_remove_key k (l : list K) : NoDup l → k ∉ remove_key k l.
Proof.
  induction 1 as [|k0 l Hnin Hnd IH]; simpl; [apply not_elem_of_nil|].
  destruct (decide (k = k0)) as [->|]; [done|].
  rewrite not_elem_of_cons. done.
Qed.

Lemma length_remove_key k (l : list K) :
  k ∈ l → S (length (remove_key k l)) = length l.
Proof.
  induction l as [|k0 l IH]; simpl; [by intros ?%elem_of_nil|].
  destruct (decide (k = k0)) as [->|]; [done|].
  rewrite elem_of_cons. intros [?|Hin]; [done|]. simpl. by rewrite IH.
Qed.

Lemma add_key_NoDup k (l : list K) : NoDup l → NoDup (add_key k l).
Proof.
  unfold add_key. intros Hnd. destruct (decide (k ∈ l)); [done|].
  apply NoDup_app. split_and!; [done| |apply NoDup_singleton].
  intros x Hx ->%list_elem_of_singleton. done.
Qed.

Lemma add_key_elem k (l : list K) : k ∈ l → add_key k l = l.
Proof. intros Hin. unfold add_key. by rewrite decide_True. Qed.

Lemma elem_of_add_key k k' (l : list K) :
  k' ∈ add_key k l ↔ k' = k ∨ k' ∈ l.
Proof.
  unfold add_key. destruct (decide (k ∈ l)).
  - naive_solver.
  - rewrite elem_of_app, list_elem_of_singleton. naive_solver.
Qed.

Lemma length_add_key k (l : list K) :
  (length (add_key k l) ≤ S (length l))%nat.
Proof.
  unfold add_key. destruct (decide (k ∈ l)); [lia|].
  rewrite length_app. simpl. lia.
Qed.

Lemma dict_keys_length d : length (dict_keys d) = length d.
Proof. unfold dict_keys. apply length_fmap. Qed.
End dict_lemmas.

(** ** Lemmas on [min] *)

Lemma min_scan_le best rest : (min_scan best rest).2 ≤ best.2.
Proof.
  revert best. induction rest as [|[k n] rest IH]; intros best; simpl; [lia|].
  destruct (Z.ltb_spec n best.2).
  - specialize (IH (k, n)). simpl in IH. lia.
  - apply IH.
Qed.

(** The element chosen by [min] splits the scanned list: strictly larger
    counters before it, larger or equal ones after it. *)
Lemma min_scan_split best rest :
  ∃ l1 l2,
    best :: rest = l1 ++ min_scan best rest :: l2 ∧
    Forall (λ x, (min_scan best rest).2 < x.2) l1 ∧
    Forall (λ x, (min_scan best rest).2 ≤ x.2) l2.
Proof.
  revert best. induction rest as [|[k n] rest IH]; intros best.
  - exists [], []. simpl. by repeat constructor.
  - simpl. destruct (Z.ltb_spec n best.2) as [Hlt|Hge].
    + destruct (IH (k, n)) as (l1 & l2 & Heq & H1 & H2).
      exists (best :: l1), l2. split_and!; [by rewrite Heq | | done].
      constructor; [|done].
      pose proof (min_scan_le (k, n) rest) as Hle. simpl in Hle. lia.
    + destruct (IH best) as (l1 & l2 & Heq & H1 & H2).
      destruct l1 as [|b l1]; simpl in Heq.
      * injection Heq as Hb Hr. exists [], ((k, n) :: l2).
        split_and!; [simpl; by rewrite <-Hb, Hr | constructor |].
        constructor; [|done]. rewrite <-Hb. simpl. lia.
      * injection Heq as Hb Hr. subst b. exists (best :: (k, n) :: l1), l2.
        split_and!; [simpl; by rewrite <-Hr | | done].
        apply Forall_cons in H1 as [Hb H1].
        repeat constructor; [done | simpl; lia | done].
Qed.

Lemma min_usage_None u : min_usage u = None ↔ u = [].
Proof. destruct u; simpl; split; congruence. Qed.

Lemma min_usage_split u k :
  min_usage u = Some k →
  ∃ n l1 l2,
    u = l1 ++ (k, n) :: l2 ∧
    Forall (λ x, n < x.2) l1 ∧ Forall (λ x, n ≤ x.2) l2.
Proof.
  destruct u as [|first rest]; simpl; [done|]. intros [= <-].
  destruct (min_scan_split first rest) as (l1 & l2 & Heq & H1 & H2).
  exists (min_scan first rest).2, l1, l2.
  by rewrite <-surjective_pairing.
Qed.

Lemma min_usage_elem u k : min_usage u = Some k → k ∈ dict_keys u.
Proof.
  intros (n & l1 & l2 & -> & _)%min_usage_split.
  unfold dict_keys. rewrite fmap_app, fmap_cons, elem_of_app, elem_of_cons.
  simpl. auto.
Qed.

(** ** The wrapper, case by case *)

Section wrapper_cases.
Variable max_limit : Z.
Variable func : func_t.
Implicit Types (s : lfu_state) (args : list pyval) (kwargs : kwargs_t).

Lemma wrapper_unhashable s args kwargs :
  hashable (make_key args kwargs) = false →
  wrapper max_limit func args kwargs s = (Raise TypeError, s).
Proof. intros Hh. unfold_wrapper. by rewrite Hh. Qed.

Lemma wrapper_hit s args kwargs v n :
  hashable (make_key args kwargs) = true →
  dict_get (cache s) (make_key args kwargs) = Some v →
  dict_get (usage s) (make_key args kwargs) = Some n →
  wrapper max_limit func args kwargs s =
    (Return v,
     LfuState (cache s)
       (dict_setitem (usage s) (make_key args kwargs) (n + 1)) (calls s)).
Proof.
  intros Hh Hc Hu. unfold_wrapper. unfold dict_contains.
  rewrite Hh, Hc. cbn [cache usage calls]. by rewrite Hu, Hc.
Qed.

Lemma wrapper_miss_raise s args kwargs e :
  hashable (make_key args kwargs) = true →
  dict_get (cache s) (make_key args kwargs) = None →
  func args kwargs = Raise e →
  wrapper max_limit func args kwargs s = (Raise e, logged s args kwargs).
Proof.
  intros Hh Hc Hf. unfold_wrapper. unfold dict_contains.
  by rewrite Hh, Hc, Hf.
Qed.

Lemma wrapper_miss_room s args kwargs r :
  hashable (make_key args kwargs) = true →
  dict_get (cache s) (make_key args kwargs) = None →
  func args kwargs = Return r →
  dict_len (cache s) < max_limit →
  wrapper max_limit func args kwargs s =
    (Return r,
     LfuState (dict_setitem (cache s) (make_key args kwargs) r)
       (dict_setitem (usage s) (make_key args kwargs) 1)
       (calls s ++ [(args, kwargs)])).
Proof.
  intros Hh Hc Hf Hlen. unfold_wrapper. unfold dict_contains.
  rewrite Hh, Hc, Hf. cbn [cache usage calls].
  destruct (Z.geb_spec (dict_len (cache s)) max_limit); [lia|done].
Qed.

Lemma wrapper_miss_empty s args kwargs r :
  hashable (make_key args kwargs) = true →
  dict_get (cache s) (make_key args kwargs) = None →
  func args kwargs = Return r →
  max_limit ≤ dict_len (cache s) →
  usage s = [] →
  wrapper max_limit func args kwargs s =
    (Raise ValueError, logged s args kwargs).
Proof.
  intros Hh Hc Hf Hlen Hu. unfold_wrapper. unfold dict_contains.
  rewrite Hh, Hc, Hf. cbn [cache usage calls].
  destruct (Z.geb_spec (dict_len (cache s)) max_limit); [|lia].
  cbn [cache usage calls]. unfold logged. by rewrite Hu.
Qed.

Lemma wrapper_miss_evict s args kwargs r k v n :
  hashable (make_key args kwargs) = true →
  dict_get (cache s) (make_key args kwargs) = None →
  func args kwargs = Return r →
  max_limit ≤ dict_len (cache s) →
  min_usage (usage s) = Some k →
  hashable k = true →
  dict_get (cache s) k = Some v →
  dict_get (usage s) k = Some n →
  wrapper max_limit func args kwargs s =
    (Return r,
     LfuState
       (dict_setitem (dict_delete (cache s) k) (make_key args kwargs) r)
       (dict_setitem (dict_delete (usage s) k) (make_key args kwargs) 1)
       (calls s ++ [(args, kwargs)])).
Proof.
  intros Hh Hc Hf Hlen Hmin Hk Hck Huk. unfold_wrapper. unfold dict_contains.
  rewrite Hh, Hc, Hf. cbn [cache usage calls].
  destruct (Z.geb_spec (dict_len (cache s)) max_limit); [|lia].
  cbn [cache usage calls]. rewrite Hmin, Hk. cbn [cache usage calls]. rewrite Hck.
  cbn [cache usage calls]. by rewrite Huk.
Qed.
End wrapper_cases.

(** ** Sorting the keyword items *)

Lemma ascii_compare_refl a : Ascii.compare a a = Eq.
Proof. unfold Ascii.compare. apply N.compare_refl. Qed.

Lemma string_leb_cons a s b t :
  String.leb (String a s) (String b t) =
    match Ascii.compare a b with
    | Eq => String.leb s t
    | Lt => true
    | Gt => false
    end.
Proof. unfold String.leb. simpl. by destruct (Ascii.compare a b). Qed.

Lemma string_leb_trans s1 s2 s3 :
  String.leb s1 s2 = true → String.leb s2 s3 = true → String.leb s1 s3 = true.
Proof.
  revert s2 s3. induction s1 as [|a s1 IH]; intros [|b s2] [|c s3]; try done.
  rewrite !string_leb_cons.
  destruct (Ascii.compare a b) eqn:Hab; [| |done];
    destruct (Ascii.compare b c) eqn:Hbc; try done.
  - apply Ascii.compare_eq_iff in Hab as ->, Hbc as ->.
    rewrite ascii_compare_refl. apply IH.
  - apply Ascii.compare_eq_iff in Hab as ->. by rewrite Hbc.
  - apply Ascii.compare_eq_iff in Hbc as <-. by rewrite Hab.
  - unfold Ascii.compare in *. rewrite N.compare_lt_iff in Hab, Hbc.
    assert ((Ascii.N_of_ascii a ?= Ascii.N_of_ascii c)%N = Lt) as ->
      by (apply N.compare_lt_iff; lia).
    done.
Qed.

Global Instance item_le_trans : Transitive item_le.
Proof. intros x y z. unfold item_le. apply string_leb_trans. Qed.

Global Instance item_le_total : Total item_le.
Proof. intros x y. unfold item_le. apply String.leb_total. Qed.

(** A dictionary holds one value per name. *)
Lemma NoDup_names_unique (l : kwargs_t) name v1 v2 :
  NoDup l.*1 → (name, v1) ∈ l → (name, v2) ∈ l → v1 = v2.
Proof.
  induction l as [|[n v] l IH]; csimpl; [by intros _ ?%elem_of_nil|].
  rewrite NoDup_cons, !elem_of_cons. intros [Hn Hnd] [H1|H1] [H2|H2].
  - congruence.
  - injection H1 as -> ->. exfalso. apply Hn.
    apply list_elem_of_fmap. by exists (n, v2).
  - injection H2 as -> ->. exfalso. apply Hn.
    apply list_elem_of_fmap. by exists (n, v1).
  - by apply IH.
Qed.

Lemma sorted_items_Permutation (kwargs : kwargs_t) :
  sorted_items kwargs ≡ₚ kwargs.
Proof. apply merge_sort_Permutation. Qed.

(** [sorted] does not depend on the order in which the keywords were
    supplied. *)
Lemma sorted_items_order_independent (kw1 kw2 : kwargs_t) :
  NoDup kw1.*1 → kw1 ≡ₚ kw2 → sorted_items kw1 = sorted_items kw2.
Proof.
  intros Hnd Hperm.
  apply (Sorted_unique_strong item_le).
  - intros [n1 v1] [n2 v2] Hin1 Hin2 H12 H21.
    assert (n1 = n2) as <- by (by apply String.leb_antisym).
    f_equal. apply (NoDup_names_unique kw1 n1); [done| |].
    + by rewrite <-(sorted_items_Permutation kw1).
    + by rewrite Hperm, <-(sorted_items_Permutation kw2).
  - apply Sorted_merge_sort, _.
  - apply Sorted_merge_sort, _.
  - by rewrite !sorted_items_Permutation.
Qed.

Lemma make_key_order_independent args (kw1 kw2 : kwargs_t) :
  NoDup kw1.*1 → kw1 ≡ₚ kw2 → make_key args kw1 = make_key args kw2.
Proof.
  intros Hnd Hperm. unfold make_key.
  by rewrite (sorted_items_order_independent kw1 kw2).
Qed.

(** ** The invariant *)

Section invariant.
Variable max_limit : Z.
Variable func : func_t.
Implicit Types (s : lfu_state) (args : list pyval) (kwargs : kwargs_t).

Lemma wrapper_call_case s args kwargs :
  consistent s →
  call_case max_limit func s args kwargs (wrapper max_limit func args kwargs s).
Proof.
  intros (Hkeys & Hnd & Hhash).
  destruct (hashable (make_key args kwargs)) eqn:Hh; cycle 1.
  { rewrite wrapper_unhashable by done. by constructor. }
  destruct (dict_get (cache s) (make_key args kwargs)) as [v|] eqn:Hc.
  { destruct (dict_get_is_Some (usage s) (make_key args kwargs)) as [n Hu].
    { rewrite <-Hkeys. by eapply dict_get_Some_elem. }
    rewrite (wrapper_hit _ _ _ _ _ v n) by done. by constructor. }
  destruct (func args kwargs) as [r|e] eqn:Hf; cycle 1.
  { rewrite (wrapper_miss_raise _ _ _ _ _ e) by done. by constructor. }
  destruct (Z.lt_ge_cases (dict_len (cache s)) max_limit) as [Hlen|Hlen].
  { rewrite (wrapper_miss_room _ _ _ _ _ r) by done. by constructor. }
  destruct (min_usage (usage s)) as [k|] eqn:Hmin; cycle 1.
  { apply min_usage_None in Hmin.
    rewrite (wrapper_miss_empty _ _ _ _ _ r) by done. by econstructor. }
  pose proof (min_usage_elem _ _ Hmin) as Hin.
  destruct (dict_get_is_Some (usage s) k Hin) as [n Hu].
  destruct (dict_get_is_Some (cache s) k) as [v Hv]; [by rewrite Hkeys|].
  rewrite Forall_forall in Hhash.
  rewrite (wrapper_miss_evict _ _ _ _ _ r k v n) by auto.
  by econstructor.
Qed.

Lemma consistent_empty : consistent empty_state.
Proof. repeat split; constructor. Qed.

Lemma consistent_wrapper s args kwargs :
  consistent s → consistent (wrapper max_limit func args kwargs s).2.
Proof.
  intros Hs. pose proof Hs as (Hkeys & Hnd & Hhash).
  assert (∀ l : list pyval, (∀ x, x ∈ l → x ∈ dict_keys (usage s)) →
            hashable (make_key args kwargs) = true →
            Forall (λ k, hashable k = true) (add_key (make_key args kwargs) l))
    as Hadd.
  { intros l Hl Hh. apply Forall_forall.
    intros x [->|Hx]%elem_of_add_key; [done|].
    eapply Forall_forall in Hhash; [done | by apply Hl]. }
  destruct (wrapper_call_case s args kwargs Hs)
    as [|v n Hh Hc Hu|e|r Hh|r|r k v n Hh]; try done;
    unfold consistent; cbn [snd cache usage];
    rewrite ?dict_keys_setitem, ?dict_keys_delete, ?Hkeys.
  - apply dict_get_Some_elem in Hu.
    rewrite (add_key_elem (make_key args kwargs) (dict_keys (usage s))) by done.
    done.
  - split_and!; [done | by apply add_key_NoDup | by apply Hadd].
  - split_and!; [done | by apply add_key_NoDup, remove_key_NoDup |].
    apply Hadd; [|done]. intros x. apply elem_of_remove_key.
Qed.

Lemma consistent_run_calls cs s :
  consistent s → consistent (run_calls max_limit func cs s).
Proof.
  revert s. induction cs as [|c cs IH]; intros s Hs; [done|].
  apply IH. by apply consistent_wrapper.
Qed.

Lemma reachable_consistent s : reachable max_limit func s → consistent s.
Proof.
  induction 1; [apply consistent_empty | by apply consistent_wrapper].
Qed.

Lemma reachable_run_calls cs s :
  reachable max_limit func s →
  reachable max_limit func (run_calls max_limit func cs s).
Proof.
  revert s. induction cs as [|c cs IH]; intros s Hs; [done|].
  apply IH. by constructor.
Qed.

Lemma run_calls_app cs1 cs2 s :
  run_calls max_limit func (cs1 ++ cs2) s =
    run_calls max_limit func cs2 (run_calls max_limit func cs1 s).
Proof. unfold run_calls. apply foldl_app. Qed.
End invariant.

(** ** Capacity *)

Section capacity.
Variable max_limit : Z.
Variable func : func_t.

Lemma dict_len_setitem_le (d : list (pyval * pyval)) k v :
  dict_len (dict_setitem d k v) ≤ dict_len d + 1.
Proof.
  unfold dict_len. rewrite <-!dict_keys_length, dict_keys_setitem.
  pose proof (length_add_key k (dict_keys d)). lia.
Qed.

Lemma dict_len_delete (d : list (pyval * pyval)) k v :
  dict_get d k = Some v → dict_len (dict_delete d k) = dict_len d - 1.
Proof.
  intros Hin%dict_get_Some_elem. unfold dict_len.
  rewrite <-!dict_keys_length, dict_keys_delete.
  pose proof (length_remove_key k (dict_keys d) Hin). lia.
Qed.

Lemma capacity_wrapper s args kwargs :
  0 < max_limit → consistent s →
  dict_len (cache s) ≤ max_limit →
  dict_len (cache (wrapper max_limit func args kwargs s).2) ≤ max_limit.
Proof.
  intros Hpos Hs Hlen.
  destruct (wrapper_call_case max_limit func s args kwargs Hs)
    as [| | |r Hh Hc Hf Hroom| |r k v n Hh Hc Hf Hfull Hmin Hv Hn];
    cbn [snd cache]; try done.
  - pose proof (dict_len_setitem_le (cache s) (make_key args kwargs) r). lia.
  - pose proof (dict_len_setitem_le (dict_delete (cache s) k)
                  (make_key args kwargs) r).
    rewrite (dict_len_delete _ _ _ Hv) in *. lia.
Qed.

Lemma capacity_run_calls cs s :
  0 < max_limit → consistent s →
  dict_len (cache s) ≤ max_limit →
  dict_len (cache (run_calls max_limit func cs s)) ≤ max_limit.
Proof.
  intros Hpos. revert s. induction cs as [|c cs IH]; intros s Hs Hlen; [done|].
  apply IH; [by apply consistent_wrapper | by apply capacity_wrapper].
Qed.
End capacity.

(** C3 (capacity invariant I1): for a positive [max_limit], after each call
    of any sequence of calls made on a freshly built cache (hits, misses
    and calls that raise alike), the cache holds at most [max_limit]
    entries.  [take n cs] is the sequence up to its [n]-th call. *)
Theorem capacity_invariant (max_limit : Z) (func : func_t)
    (cs : list (list pyval * kwargs_t)) (n : nat) :
  0 < max_limit →
  dict_len (cache (run_calls max_limit func (take n cs) (store (decorator max_limit func))))
    ≤ max_limit.
Proof.
  intros Hpos. apply capacity_run_calls; [done | apply consistent_empty |].
  simpl. unfold dict_len. simpl. lia.
Qed.

Lemma capacity_invariant_witness :
  dict_len (cache (run_calls 2 quotient
      (take 4 [([PInt 1], []); ([PInt 2], []); ([PInt 1], []); ([PInt 3], [])])
      (store (decorator 2 quotient)))) ≤ 2.
Proof. apply capacity_invariant. lia. Defined.

(** ** Bijection between the two dictionaries *)

(** C6 (bijection invariant I2): after every call of any sequence of calls
    on a freshly built cache, whether the call returned or raised, [cache]
    and [usage] hold the same keys (in the same order), each key once; so a
    key is in the one exactly when it is in the other, and a further call
    removes a key from [cache] exactly when it removes it from [usage]. *)
Theorem bijection_invariant (max_limit : Z) (func : func_t)
    (cs : list (list pyval * kwargs_t)) :
  let s := run_calls max_limit func cs (store (decorator max_limit func)) in
  dict_keys (cache s) = dict_keys (usage s) ∧
  NoDup (dict_keys (cache s)) ∧
  (∀ k, dict_contains (cache s) k = dict_contains (usage s) k) ∧
  (∀ args kwargs k,
     let s' := (wrapper max_limit func args kwargs s).2 in
     (k ∈ dict_keys (cache s) ∧ k ∉ dict_keys (cache s')) ↔
     (k ∈ dict_keys (usage s) ∧ k ∉ dict_keys (usage s'))).
Proof.
  intros s.
  assert (consistent s) as Hs by apply consistent_run_calls, consistent_empty.
  pose proof Hs as (Hkeys & Hnd & _). split_and!.
  - done.
  - by rewrite Hkeys.
  - intros k. destruct (dict_contains (usage s) k) eqn:Hu.
    + apply dict_contains_true. rewrite Hkeys. by apply dict_contains_true.
    + apply dict_contains_false. rewrite Hkeys. by apply dict_contains_false.
  - intros args kwargs k s'.
    destruct (consistent_wrapper max_limit func s args kwargs Hs) as (Hkeys' & _).
    fold s' in Hkeys'. by rewrite Hkeys, Hkeys'.
Qed.

(** ** Errors *)

(** C7 (computation error atomicity): when a call reaches the wrapped
    function (hashable key, not in the cache) and the function raises [e],
    the call raises [e] itself, and both dictionaries are left as they
    were: no entry for the key, no eviction. *)
Theorem computation_error_atomicity (max_limit : Z) (func : func_t)
    (s : lfu_state) (args : list pyval) (kwargs : kwargs_t) (e : pyexn) :
  hashable (make_key args kwargs) = true →
  dict_contains (cache s) (make_key args kwargs) = false →
  func args kwargs = Raise e →
  let r := wrapper max_limit func args kwargs s in
  r.1 = Raise e ∧ cache r.2 = cache s ∧ usage r.2 = usage s ∧
  ¬ resident r.2 (make_key args kwargs).
Proof.
  intros Hh Hc Hf r. subst r.
  assert (dict_get (cache s) (make_key args kwargs) = None) as Hg.
  { unfold dict_contains in Hc. by destruct (dict_get _ _). }
  rewrite (wrapper_miss_raise _ _ _ _ _ e) by done.
  split_and!; try done. by apply dict_get_None.
Qed.

Lemma computation_error_atomicity_witness :
  let s := run_calls 2 quotient [([PInt 1], []); ([PInt 2], [])] empty_state in
  let r := wrapper 2 quotient [PInt 0] [] s in
  r.1 = Raise (OtherError "ZeroDivisionError") ∧ cache r.2 = cache s ∧
  usage r.2 = usage s ∧ ¬ resident r.2 (make_key [PInt 0] []).
Proof. apply computation_error_atomicity; reflexivity. Defined.

(** C8, as stated, fails: a call with a list among its arguments raises
    the built-in [TypeError] of hashing, not an [InvalidKeyError]. *)
Lemma unkeyable_not_InvalidKeyError :
  hashable (make_key [PList [PInt 1]] []) = false ∧
  (wrapper 64 quotient [PList [PInt 1]] [] empty_state).1
    ≠ Raise (OtherError "InvalidKeyError").
Proof. split; [reflexivity | discriminate]. Qed.

(** C8, amended (unkeyable arguments): a call whose key is unhashable
    raises [TypeError]; the wrapped function is not invoked and the state
    (both dictionaries and the invocation log) is unchanged. *)
Theorem unkeyable_raises_TypeError (max_limit : Z) (func : func_t)
    (s : lfu_state) (args : list pyval) (kwargs : kwargs_t) :
  hashable (make_key args kwargs) = false →
  wrapper max_limit func args kwargs s = (Raise TypeError, s).
Proof. apply wrapper_unhashable. Qed.

Lemma unkeyable_raises_TypeError_witness :
  wrapper 64 quotient [PList [PInt 1]] [] empty_state =
    (Raise TypeError, empty_state).
Proof. apply unkeyable_raises_TypeError. reflexivity. Defined.

(** ** Construction *)

(** C9, as stated, fails: [lfu_cache(0)] and [lfu_cache(-1)] return a
    decorator; no [InvalidConfigurationError] is raised. *)
Lemma nonpositive_limit_not_rejected :
  lfu_cache 0 ≠ Raise (OtherError "InvalidConfigurationError") ∧
  lfu_cache (-1) ≠ Raise (OtherError "InvalidConfigurationError") ∧
  (∃ d, lfu_cache 0 = Return d).
Proof. split_and!; [discriminate | discriminate | by eexists]. Qed.

(** C9, amended (construction): [lfu_cache(max_limit)] succeeds for every
    [max_limit], zero and negative ones included; applied to a function it
    yields the wrapper for that limit, with both dictionaries empty. *)
Theorem construction_never_fails (max_limit : Z) (func : func_t) :
  ∃ d, lfu_cache max_limit = Return d ∧
       call (d func) = wrapper max_limit func ∧
       cache (store (d func)) = [] ∧ usage (store (d func)) = [].
Proof. by exists (decorator max_limit). Qed.

(** ** Zero or negative capacity *)

Section degenerate.
Variable max_limit : Z.
Variable func : func_t.
Hypothesis Hlimit : max_limit ≤ 0.

Lemma vacant_consistent s : vacant s → consistent s.
Proof.
  intros [Hc Hu]. unfold consistent. rewrite Hc, Hu. repeat split; constructor.
Qed.

Lemma vacant_wrapper s args kwargs :
  vacant s →
  hashable (make_key args kwargs) = true →
  wrapper max_limit func args kwargs s =
    (match func args kwargs with
     | Return _ => Raise ValueError
     | Raise e => Raise e
     end, logged s args kwargs).
Proof.
  intros [Hc Hu] Hh.
  assert (dict_get (cache s) (make_key args kwargs) = None) as Hg
    by by rewrite Hc.
  destruct (func args kwargs) as [r|e] eqn:Hf.
  - apply (wrapper_miss_empty _ _ _ _ _ r); try done.
    rewrite Hc. unfold dict_len. simpl. lia.
  - by apply wrapper_miss_raise.
Qed.

Lemma vacant_step s args kwargs :
  vacant s → vacant (wrapper max_limit func args kwargs s).2.
Proof.
  intros Hs. destruct (hashable (make_key args kwargs)) eqn:Hh.
  - by rewrite vacant_wrapper.
  - by rewrite wrapper_unhashable.
Qed.

Lemma vacant_run_calls cs s :
  vacant s → vacant (run_calls max_limit func cs s).
Proof.
  revert s. induction cs as [|c cs IH]; intros s Hs; [done|].
  apply IH. by apply vacant_step.
Qed.
End degenerate.

(** C10, as stated, fails: with [max_limit = 0], a call whose wrapped
    function raises does not end in the error of [min]; the function's own
    error comes out. *)
Lemma degenerate_call_not_always_min_error :
  (wrapper 0 quotient [PInt 0] [] (store (decorator 0 quotient))).1
    = Raise (OtherError "ZeroDivisionError") ∧
  (wrapper 0 quotient [PInt 0] [] (store (decorator 0 quotient))).1
    ≠ Raise ValueError.
Proof. split; [reflexivity | discriminate]. Qed.

(** C10, amended (zero or negative capacity): for [max_limit ≤ 0],
    construction succeeds; after any sequence of calls both dictionaries
    are still empty; every call with a hashable key misses and invokes the
    wrapped function, and raises the [ValueError] of [min] over the empty
    [usage] when the function returned, the function's own error when it
    raised; a call with an unhashable key raises [TypeError] without
    invoking the function. *)
Theorem degenerate_capacity (max_limit : Z) (func : func_t)
    (cs : list (list pyval * kwargs_t)) (args : list pyval) (kwargs : kwargs_t) :
  max_limit ≤ 0 →
  let s := run_calls max_limit func cs (store (decorator max_limit func)) in
  let r := wrapper max_limit func args kwargs s in
  lfu_cache max_limit = Return (decorator max_limit) ∧
  cache s = [] ∧ usage s = [] ∧ cache r.2 = [] ∧ usage r.2 = [] ∧
  dict_contains (cache s) (make_key args kwargs) = false ∧
  (hashable (make_key args kwargs) = true →
     calls r.2 = calls s ++ [(args, kwargs)] ∧
     r.1 = match func args kwargs with
           | Return _ => Raise ValueError
           | Raise e => Raise e
           end) ∧
  (hashable (make_key args kwargs) = false →
     calls r.2 = calls s ∧ r.1 = Raise TypeError).
Proof.
  intros Hlimit s r.
  assert (vacant s) as Hs by (by apply vacant_run_calls).
  pose proof (vacant_step max_limit func Hlimit s args kwargs Hs) as Hr.
  fold r in Hr. destruct Hs as [Hc Hu], Hr as [Hc' Hu'].
  split_and!; try done.
  - by rewrite Hc.
  - intros Hh. subst r. by rewrite vacant_wrapper.
  - intros Hh. subst r. by rewrite wrapper_unhashable.
Qed.

Lemma degenerate_capacity_witness :
  let s := run_calls 0 quotient [([PInt 4], []); ([PInt 0], [])]
             (store (decorator 0 quotient)) in
  let r := wrapper 0 quotient [PInt 5] [] s in
  cache r.2 = [] ∧ usage r.2 = [] ∧
  calls r.2 = calls s ++ [([PInt 5], [])] ∧ r.1 = Raise ValueError.
Proof.
  intros s r.
  destruct (degenerate_capacity 0 quotient [([PInt 4], []); ([PInt 0], [])]
              [PInt 5] []) as (_ & _ & _ & Hc & Hu & _ & Hcall & _); [lia|].
  destruct Hcall as [Hlog Hout]; [reflexivity|].
  split_and!; [exact Hc | exact Hu | exact Hlog | exact Hout].
Defined.

(** ** Frequency counters *)

Section frequency.
Variable max_limit : Z.
Variable func : func_t.
Implicit Types (s : lfu_state) (args : list pyval) (kwargs : kwargs_t).

Lemma resident_hashable s k : consistent s → resident s k → hashable k = true.
Proof.
  intros (Hkeys & _ & Hhash) Hk. unfold resident in Hk. rewrite Hkeys in Hk.
  by eapply Forall_forall in Hhash.
Qed.

Lemma resident_dict_get s k : resident s k ↔ is_Some (dict_get (cache s) k).
Proof.
  split; [apply dict_get_is_Some|]. intros [v Hv]. by eapply dict_get_Some_elem.
Qed.

Lemma not_resident_dict_get s k : ¬ resident s k ↔ dict_get (cache s) k = None.
Proof. symmetry. apply dict_get_None. Qed.

(** A key other than the one called, if still resident, keeps its
    counter. *)
Lemma usage_other_key s args kwargs k :
  consistent s →
  k ≠ make_key args kwargs →
  resident (wrapper max_limit func args kwargs s).2 k →
  dict_get (usage (wrapper max_limit func args kwargs s).2) k =
    dict_get (usage s) k.
Proof.
  intros Hs Hne. pose proof Hs as (Hkeys & Hnd & _).
  destruct (wrapper_call_case max_limit func s args kwargs Hs)
    as [|v n Hh Hc Hu|e|r Hh|r|r victim v n Hh Hc Hf Hfull Hmin Hv Hn];
    unfold resident; cbn [snd cache usage]; try done.
  - intros _. rewrite dict_get_setitem. by rewrite decide_False.
  - intros _. rewrite dict_get_setitem. by rewrite decide_False.
  - rewrite dict_keys_setitem, dict_keys_delete, Hkeys.
    intros [?|Hk]%elem_of_add_key; [done|].
    rewrite dict_get_setitem, decide_False by done.
    apply dict_get_delete_ne. intros ->.
    by apply (not_elem_of_remove_key victim (dict_keys (usage s))).
Qed.

Lemma usage_inserted s args kwargs :
  consistent s →
  ¬ resident s (make_key args kwargs) →
  resident (wrapper max_limit func args kwargs s).2 (make_key args kwargs) →
  dict_get (usage (wrapper max_limit func args kwargs s).2)
    (make_key args kwargs) = Some 1.
Proof.
  intros Hs Hmiss.
  destruct (wrapper_call_case max_limit func s args kwargs Hs)
    as [|v n Hh Hc Hu| | | |]; cbn [snd cache usage]; [done| |done| |done|].
  - intros _. exfalso. apply Hmiss. unfold resident.
    by eapply dict_get_Some_elem.
  - intros _. by rewrite dict_get_setitem, decide_True.
  - intros _. by rewrite dict_get_setitem, decide_True.
Qed.

Lemma usage_hit s args kwargs n :
  consistent s →
  resident s (make_key args kwargs) →
  dict_get (usage s) (make_key args kwargs) = Some n →
  ∃ v, dict_get (cache s) (make_key args kwargs) = Some v ∧
       wrapper max_limit func args kwargs s =
         (Return v,
          LfuState (cache s)
            (dict_setitem (usage s) (make_key args kwargs) (n + 1))
            (calls s)).
Proof.
  intros Hs Hres Hn.
  pose proof (resident_hashable s _ Hs Hres) as Hh.
  apply resident_dict_get in Hres as [v Hv]. exists v. split; [done|].
  by apply wrapper_hit.
Qed.
End frequency.

(** C5 (frequency accounting I3): for a call made in a state of the cache,
    with [key] the key of the call: if the call makes [key] resident, its
    counter is 1 right after; if [key] is resident with counter [n], the
    call is a hit, returns the stored value and leaves the counter at
    [n + 1]; every other key that is resident after the call has the
    counter it had before, whether the call was a hit, an insertion or an
    insertion with an eviction. *)
Theorem frequency_accounting (max_limit : Z) (func : func_t)
    (s : lfu_state) (args : list pyval) (kwargs : kwargs_t) :
  reachable max_limit func s →
  let key := make_key args kwargs in
  let r := wrapper max_limit func args kwargs s in
  (¬ resident s key → resident r.2 key → dict_get (usage r.2) key = Some 1) ∧
  (∀ n, resident s key → dict_get (usage s) key = Some n →
        dict_get (usage r.2) key = Some (n + 1) ∧
        ∃ v, dict_get (cache s) key = Some v ∧ r.1 = Return v) ∧
  (∀ k, k ≠ key → resident r.2 k →
        dict_get (usage r.2) k = dict_get (usage s) k).
Proof.
  intros Hs%reachable_consistent key r. subst key r. split_and!.
  - by apply usage_inserted.
  - intros n Hres Hn.
    destruct (usage_hit max_limit func s args kwargs n Hs Hres Hn)
      as (v & Hv & ->).
    cbn [fst snd usage]. rewrite dict_get_setitem, decide_True by done.
    split; [done|]. by exists v.
  - intros k Hne Hres. by apply usage_other_key.
Qed.

Lemma frequency_accounting_witness :
  let s := run_calls 2 quotient [([PInt 1], []); ([PInt 2], []); ([PInt 1], [])]
             empty_state in
  let hit := wrapper 2 quotient [PInt 1] [] s in
  let miss := wrapper 2 quotient [PInt 4] [] s in
  dict_get (usage hit.2) (make_key [PInt 1] []) = Some 3 ∧
  dict_get (usage hit.2) (make_key [PInt 2] []) = Some 1 ∧
  dict_get (usage miss.2) (make_key [PInt 4] []) = Some 1 ∧
  dict_get (usage miss.2) (make_key [PInt 1] []) = Some 2.
Proof.
  intros s hit miss.
  assert (reachable 2 quotient s) as Hs
    by (apply reachable_run_calls, reachable_empty).
  destruct (frequency_accounting 2 quotient s [PInt 1] [] Hs)
    as (_ & Hhit & Hother).
  destruct (frequency_accounting 2 quotient s [PInt 4] [] Hs)
    as (Hins & _ & Hother').
  split_and!.
  - apply (Hhit 2); [by_evaluation | reflexivity].
  - apply (Hother (make_key [PInt 2] [])); [discriminate | by_evaluation].
  - apply Hins; by_evaluation.
  - apply (Hother' (make_key [PInt 1] [])); [discriminate | by_evaluation].
Defined.

(** ** Eviction *)

Section eviction.
Variable max_limit : Z.
Variable func : func_t.
Implicit Types (s : lfu_state) (args : list pyval) (kwargs : kwargs_t).

Lemma remove_key_sublist (k : pyval) (l : list pyval) :
  remove_key k l `sublist_of` l.
Proof.
  induction l as [|k' l IH]; simpl; [done|].
  destruct (decide (k = k')); [by apply sublist_cons | by apply sublist_skip].
Qed.

(** Whatever key a call evicts is the first least used one. *)
Lemma evicted_first_least_used s args kwargs victim :
  consistent s →
  evicts s (wrapper max_limit func args kwargs s).2 victim →
  first_least_used (usage s) victim.
Proof.
  intros Hs. pose proof Hs as (Hkeys & Hnd & _). unfold evicts, resident.
  destruct (wrapper_call_case max_limit func s args kwargs Hs)
    as [|v n Hh Hc Hu|e|r Hh|r|r k v n Hh Hc Hf Hfull Hmin Hv Hn];
    cbn [snd cache]; try tauto.
  - rewrite dict_keys_setitem. intros [Hin Hout]. exfalso. apply Hout.
    apply elem_of_add_key. by right.
  - rewrite dict_keys_setitem, dict_keys_delete. intros [Hin Hout].
    destruct (decide (victim = k)) as [->|Hne].
    + by apply min_usage_split.
    + exfalso. apply Hout, elem_of_add_key. right.
      by apply elem_of_remove_key_ne.
Qed.

(** A miss at capacity whose function returns does evict a key. *)
Lemma miss_at_capacity_evicts s args kwargs r :
  consistent s →
  0 < max_limit →
  hashable (make_key args kwargs) = true →
  ¬ resident s (make_key args kwargs) →
  max_limit ≤ dict_len (cache s) →
  func args kwargs = Return r →
  ∃ victim,
    min_usage (usage s) = Some victim ∧
    evicts s (wrapper max_limit func args kwargs s).2 victim ∧
    dict_keys (cache (wrapper max_limit func args kwargs s).2) =
      remove_key victim (dict_keys (cache s)) ++ [make_key args kwargs].
Proof.
  intros Hs Hpos Hh Hmiss Hfull Hf. pose proof Hs as (Hkeys & Hnd & _).
  apply not_resident_dict_get in Hmiss as Hg.
  destruct (wrapper_call_case max_limit func s args kwargs Hs)
    as [|v n ? Hc|e ? ? Hf'|r' ? ? ? Hroom|r' ? ? ? ? Hu
        |r' k v n _ _ _ _ Hmin Hv Hn];
    try congruence; try lia.
  - exfalso. assert (dict_keys (cache s) = []) as Hnil
      by (by rewrite Hkeys, Hu).
    unfold dict_len in Hfull. rewrite <-dict_keys_length, Hnil in Hfull.
    simpl in Hfull. lia.
  - exists k. cbn [snd cache]. rewrite dict_keys_setitem, dict_keys_delete.
    assert (k ∈ dict_keys (cache s)) as Hk by (by eapply dict_get_Some_elem).
    assert (k ∉ remove_key k (dict_keys (cache s))) as Hout
      by (apply not_elem_of_remove_key; by rewrite Hkeys).
    assert (make_key args kwargs ∉ remove_key k (dict_keys (cache s))) as Hnew.
    { intros Hin%elem_of_remove_key. by apply Hmiss. }
    unfold add_key. rewrite decide_False by done.
    split_and!; [done | split; [done|] | done].
    unfold resident. cbn [cache]. rewrite dict_keys_setitem, dict_keys_delete.
    unfold add_key. rewrite decide_False by done.
    rewrite elem_of_app, list_elem_of_singleton. intros [Hin | ->]; [done|].
    by apply Hmiss.
Qed.

(** A hit leaves the order of the keys as it is. *)
Lemma hit_keeps_order s args kwargs :
  consistent s →
  resident s (make_key args kwargs) →
  dict_keys (usage (wrapper max_limit func args kwargs s).2) =
    dict_keys (usage s).
Proof.
  intros Hs Hres. pose proof Hs as (Hkeys & _).
  destruct (dict_get_is_Some (usage s) (make_key args kwargs)) as [n Hn];
    [by rewrite <-Hkeys|].
  destruct (usage_hit max_limit func s args kwargs n Hs Hres Hn)
    as (v & _ & ->).
  cbn [snd usage]. rewrite dict_keys_setitem. apply add_key_elem.
  by rewrite <-Hkeys.
Qed.

(** A key that a call makes resident goes last; the keys before it are
    those that were there, in the order they had. *)
Lemma inserted_goes_last s args kwargs :
  consistent s →
  ¬ resident s (make_key args kwargs) →
  resident (wrapper max_limit func args kwargs s).2 (make_key args kwargs) →
  ∃ rest,
    dict_keys (usage (wrapper max_limit func args kwargs s).2) =
      rest ++ [make_key args kwargs] ∧
    rest `sublist_of` dict_keys (usage s).
Proof.
  intros Hs Hmiss. pose proof Hs as (Hkeys & _).
  unfold resident in Hmiss. rewrite Hkeys in Hmiss.
  destruct (wrapper_call_case max_limit func s args kwargs Hs)
    as [| | | | |r k v n]; unfold resident, logged; cbn [snd cache usage];
    rewrite ?Hkeys; [done|done|done| |done|]; intros _;
    rewrite dict_keys_setitem, ?dict_keys_delete.
  - exists (dict_keys (usage s)). unfold add_key.
    by rewrite decide_False.
  - exists (remove_key k (dict_keys (usage s))). unfold add_key.
    rewrite decide_False; [split; [done | apply remove_key_sublist]|].
    intros Hin%elem_of_remove_key. by apply Hmiss.
Qed.
End eviction.

(** The scenario of three first calls on a cache of two entries. *)
Lemma three_misses_evict_first (func : func_t) (r1 r2 r3 : pyval) :
  func [PInt 1] [] = Return r1 →
  func [PInt 2] [] = Return r2 →
  func [PInt 3] [] = Return r3 →
  let s2 := run_calls 2 func [([PInt 1], []); ([PInt 2], [])] empty_state in
  let s3 := (wrapper 2 func [PInt 3] [] s2).2 in
  cache s2 = [(make_key [PInt 1] [], r1); (make_key [PInt 2] [], r2)] ∧
  usage s2 = [(make_key [PInt 1] [], 1); (make_key [PInt 2] [], 1)] ∧
  cache s3 = [(make_key [PInt 2] [], r2); (make_key [PInt 3] [], r3)] ∧
  usage s3 = [(make_key [PInt 2] [], 1); (make_key [PInt 3] [], 1)].
Proof.
  intros H1 H2 H3 s2 s3. subst s3 s2. unfold run_calls. cbn [foldl fst snd].
  rewrite (wrapper_miss_room 2 func empty_state [PInt 1] [] r1)
    by (done || reflexivity).
  cbn [snd cache usage calls empty_state dict_setitem app].
  rewrite (wrapper_miss_room 2 func _ [PInt 2] [] r2)
    by (done || reflexivity).
  cbn [snd cache usage calls].
  rewrite (wrapper_miss_evict 2 func _ [PInt 3] [] r3 (make_key [PInt 1] []) r1 1)
    by (done || reflexivity).
  cbn [snd cache usage calls]. by vm_compute.
Qed.

(** C1 (eviction victim selection): in any state of the cache, a key that
    a call evicts is the first least used one: its counter is strictly
    smaller than that of every key before it in insertion order and at
    most that of every key after it; a miss on a full cache (positive
    [max_limit], function returning) does evict such a key and appends the
    new one; a hit does not move any key, and an inserted key goes last, so
    the order of [usage] is the order of insertion.  In particular, with
    [max_limit = 2], the calls [f(1)], [f(2)], [f(3)] evict key [1] and
    leave keys [2] and [3]. *)
Theorem eviction_victim_selection (max_limit : Z) (func : func_t) :
  (∀ s args kwargs,
     reachable max_limit func s →
     let key := make_key args kwargs in
     let s' := (wrapper max_limit func args kwargs s).2 in
     (∀ victim, evicts s s' victim → first_least_used (usage s) victim) ∧
     (∀ r, 0 < max_limit → hashable key = true → ¬ resident s key →
           max_limit ≤ dict_len (cache s) → func args kwargs = Return r →
           ∃ victim, evicts s s' victim ∧
             dict_keys (cache s') = remove_key victim (dict_keys (cache s)) ++ [key]) ∧
     (resident s key → dict_keys (usage s') = dict_keys (usage s)) ∧
     (¬ resident s key → resident s' key →
        ∃ rest, dict_keys (usage s') = rest ++ [key] ∧
                rest `sublist_of` dict_keys (usage s))) ∧
  (∀ r1 r2 r3,
     max_limit = 2 →
     func [PInt 1] [] = Return r1 →
     func [PInt 2] [] = Return r2 →
     func [PInt 3] [] = Return r3 →
     let s2 := run_calls max_limit func [([PInt 1], []); ([PInt 2], [])]
                 (store (decorator max_limit func)) in
     let s3 := (wrapper max_limit func [PInt 3] [] s2).2 in
     evicts s2 s3 (make_key [PInt 1] []) ∧
     dict_keys (cache s3) = [make_key [PInt 2] []; make_key [PInt 3] []]).
Proof.
  split.
  - intros s args kwargs Hs%reachable_consistent key s'. subst key s'.
    split_and!.
    + intros victim. by apply evicted_first_least_used.
    + intros r Hpos Hh Hmiss Hfull Hf.
      destruct (miss_at_capacity_evicts max_limit func s args kwargs r)
        as (victim & _ & Hev & Hkeys); try done.
      by exists victim.
    + by apply hit_keeps_order.
    + by apply inserted_goes_last.
  - intros r1 r2 r3 -> H1 H2 H3 s2 s3.
    pose proof (three_misses_evict_first func r1 r2 r3 H1 H2 H3) as Hrun.
    cbv zeta in Hrun. destruct Hrun as (Hc2 & _ & Hc3 & _).
    subst s3 s2. change (store (decorator 2 func)) with empty_state.
    unfold evicts, resident. rewrite Hc2, Hc3.
    split; [|done]. split; [by_evaluation | by_evaluation].
Qed.

Lemma eviction_victim_selection_witness :
  let s2 := run_calls 2 quotient [([PInt 1], []); ([PInt 2], [])]
              (store (decorator 2 quotient)) in
  let s3 := (wrapper 2 quotient [PInt 3] [] s2).2 in
  (evicts s2 s3 (make_key [PInt 1] []) ∧
   dict_keys (cache s3) = [make_key [PInt 2] []; make_key [PInt 3] []]) ∧
  first_least_used (usage s2) (make_key [PInt 1] []).
Proof.
  intros s2 s3.
  destruct (eviction_victim_selection 2 quotient) as [Hgen Hscn].
  assert (evicts s2 s3 (make_key [PInt 1] []) ∧
          dict_keys (cache s3) = [make_key [PInt 2] []; make_key [PInt 3] []])
    as Hrun by (apply (Hscn (PInt 100) (PInt 50) (PInt 33)); reflexivity).
  split; [exact Hrun|].
  destruct (Hgen s2 [PInt 3] []) as (Hvictim & _).
  { apply reachable_run_calls, reachable_empty. }
  apply Hvictim. exact (proj1 Hrun).
Defined.

(** ** Hits *)

Section hits.
Variable max_limit : Z.
Variable func : func_t.
Implicit Types (s : lfu_state) (args : list pyval) (kwargs : kwargs_t).

Lemma invocations_snoc key log args kwargs :
  invocations key (log ++ [(args, kwargs)]) =
    (invocations key log +
     if decide (make_key args kwargs = key) then 1 else 0)%nat.
Proof.
  unfold invocations. rewrite filter_app, length_app. f_equal.
  rewrite filter_cons, filter_nil. simpl.
  by destruct (decide (make_key args kwargs = key)).
Qed.

(** While a key stays resident, its value stays, and the function is not
    invoked for it. *)
Lemma resident_value_kept s args kwargs key v :
  consistent s →
  dict_get (cache s) key = Some v →
  resident (wrapper max_limit func args kwargs s).2 key →
  dict_get (cache (wrapper max_limit func args kwargs s).2) key = Some v ∧
  invocations key (calls (wrapper max_limit func args kwargs s).2) =
    invocations key (calls s).
Proof.
  intros Hs Hv. pose proof Hs as (Hkeys & Hnd & _).
  assert (∀ a k, dict_get (cache s) (make_key a k) = None →
            invocations key (calls s ++ [(a, k)]) = invocations key (calls s))
    as Hlog.
  { intros a k Hnone. rewrite invocations_snoc, decide_False; [lia|].
    intros Heq. rewrite Heq in Hnone. congruence. }
  destruct (wrapper_call_case max_limit func s args kwargs Hs)
    as [|v' n Hh Hc Hu|e Hh Hc Hf|r Hh Hc Hf Hroom|r Hh Hc Hf Hfull Hu
        |r victim v' n Hh Hc Hf Hfull Hmin Hv' Hn];
    unfold resident, logged; cbn [snd cache calls]; intros Hres.
  - done.
  - done.
  - split; [done | by apply Hlog].
  - split; [|by apply Hlog].
    rewrite dict_get_setitem, decide_False; [done|]. congruence.
  - split; [done | by apply Hlog].
  - split; [|by apply Hlog].
    assert (key ≠ make_key args kwargs) as Hne by congruence.
    rewrite dict_get_setitem, decide_False by done.
    rewrite dict_get_delete_ne; [done|]. intros ->.
    rewrite dict_keys_setitem, dict_keys_delete in Hres.
    apply elem_of_add_key in Hres as [Hres|Hres]; [done|].
    revert Hres. apply not_elem_of_remove_key. by rewrite Hkeys.
Qed.

Lemma resident_value_kept_run between s key v :
  consistent s →
  dict_get (cache s) key = Some v →
  (∀ n, resident (run_calls max_limit func (take n between) s) key) →
  dict_get (cache (run_calls max_limit func between s)) key = Some v ∧
  invocations key (calls (run_calls max_limit func between s)) =
    invocations key (calls s).
Proof.
  revert s. induction between as [|c between IH]; intros s Hs Hv Hres; [done|].
  destruct (resident_value_kept s c.1 c.2 key v Hs Hv (Hres 1%nat))
    as [Hv' Hlog'].
  destruct (IH (wrapper max_limit func c.1 c.2 s).2) as [Hv'' Hlog''].
  - by apply consistent_wrapper.
  - done.
  - intros n. apply (Hres (S n)).
  - split; [done|]. simpl. by rewrite Hlog'', Hlog'.
Qed.

(** A miss that returns stores what the function returned. *)
Lemma returned_miss_stores s args kwargs v :
  consistent s →
  ¬ resident s (make_key args kwargs) →
  (wrapper max_limit func args kwargs s).1 = Return v →
  func args kwargs = Return v ∧
  dict_get (cache (wrapper max_limit func args kwargs s).2)
    (make_key args kwargs) = Some v ∧
  calls (wrapper max_limit func args kwargs s).2 =
    calls s ++ [(args, kwargs)].
Proof.
  intros Hs Hmiss%not_resident_dict_get.
  destruct (wrapper_call_case max_limit func s args kwargs Hs)
    as [| | |r Hh Hc Hf Hroom| |r victim v' n Hh Hc Hf];
    cbn [fst snd cache calls]; try congruence.
  - intros [= ->]. by rewrite dict_get_setitem, decide_True.
  - intros [= ->]. by rewrite dict_get_setitem, decide_True.
Qed.
End hits.

(** C2 (hit avoids recomputation): when a call misses and returns [v], and
    after any calls in between that leave its key resident a second call
    comes with the same canonical arguments, the second call returns [v],
    the value the first call stored, without invoking the wrapped function;
    over the whole run the function was invoked exactly once for that key,
    by the first call. *)
Theorem hit_avoids_recomputation (max_limit : Z) (func : func_t)
    (s : lfu_state) (args : list pyval) (kwargs : kwargs_t) (v : pyval)
    (between : list (list pyval * kwargs_t))
    (args' : list pyval) (kwargs' : kwargs_t) :
  reachable max_limit func s →
  let key := make_key args kwargs in
  let first := wrapper max_limit func args kwargs s in
  ¬ resident s key →
  first.1 = Return v →
  make_key args' kwargs' = key →
  (∀ n, resident (run_calls max_limit func (take n between) first.2) key) →
  let s2 := run_calls max_limit func between first.2 in
  let second := wrapper max_limit func args' kwargs' s2 in
  func args kwargs = Return v ∧
  dict_get (cache first.2) key = Some v ∧
  second.1 = Return v ∧
  calls second.2 = calls s2 ∧
  invocations key (calls second.2) = S (invocations key (calls s)).
Proof.
  intros Hs%reachable_consistent key first Hmiss Hret Hkey Hres s2 second.
  destruct (returned_miss_stores max_limit func s args kwargs v Hs Hmiss Hret)
    as (Hf & Hstored & Hlog).
  fold key first in Hstored, Hlog.
  assert (consistent first.2) as Hs1 by (by apply consistent_wrapper).
  destruct (resident_value_kept_run max_limit func between first.2 key v
              Hs1 Hstored Hres) as [Hv2 Hlog2].
  fold s2 in Hv2, Hlog2.
  assert (consistent s2) as Hs2 by (by apply consistent_run_calls).
  assert (resident s2 key) as Hres2 by (by eapply dict_get_Some_elem).
  destruct (dict_get_is_Some (usage s2) key) as [n Hn].
  { destruct Hs2 as (<- & _). exact Hres2. }
  rewrite <-Hkey in Hres2, Hn.
  destruct (usage_hit max_limit func s2 args' kwargs' n Hs2 Hres2 Hn)
    as (v' & Hv' & Hcall).
  fold second in Hcall. rewrite Hkey, Hv2 in Hv'. injection Hv' as <-.
  rewrite Hcall. cbn [fst snd calls]. split_and!; try done.
  rewrite Hlog2, Hlog, invocations_snoc. fold key.
  rewrite decide_True by done. lia.
Qed.

Lemma hit_avoids_recomputation_witness :
  let first := wrapper 2 quotient [PInt 4] [] empty_state in
  let s2 := run_calls 2 quotient [([PInt 5], [])] first.2 in
  let second := wrapper 2 quotient [PInt 4] [] s2 in
  quotient [PInt 4] [] = Return (PInt 25) ∧
  dict_get (cache first.2) (make_key [PInt 4] []) = Some (PInt 25) ∧
  second.1 = Return (PInt 25) ∧
  calls second.2 = calls s2 ∧
  invocations (make_key [PInt 4] []) (calls second.2) =
    S (invocations (make_key [PInt 4] []) (calls empty_state)).
Proof.
  apply (hit_avoids_recomputation 2 quotient empty_state [PInt 4] [] (PInt 25)
           [([PInt 5], [])] [PInt 4] []).
  - apply reachable_empty.
  - by_evaluation.
  - reflexivity.
  - reflexivity.
  - intros [|[|n]]; by_evaluation.
Defined.

(** ** Keyword order *)

(** C4 (keyword order independence): two calls with the same positional
    arguments and the same keyword arguments, supplied in any order, build
    the same key; so when the one has an entry in the cache, the other is
    a hit on that entry: it returns the stored value and does not invoke
    the wrapped function. *)
Theorem keyword_order_independence (args : list pyval) (kw1 kw2 : kwargs_t) :
  NoDup kw1.*1 →
  kw1 ≡ₚ kw2 →
  make_key args kw1 = make_key args kw2 ∧
  ∀ max_limit func s v,
    reachable max_limit func s →
    dict_get (cache s) (make_key args kw1) = Some v →
    let r := wrapper max_limit func args kw2 s in
    r.1 = Return v ∧ cache r.2 = cache s ∧ calls r.2 = calls s.
Proof.
  intros Hnd Hperm.
  pose proof (make_key_order_independent args kw1 kw2 Hnd Hperm) as Hkey.
  split; [done|].
  intros max_limit func s v Hs%reachable_consistent Hv r. subst r.
  rewrite Hkey in Hv.
  assert (resident s (make_key args kw2)) as Hres
    by (by eapply dict_get_Some_elem).
  destruct (dict_get_is_Some (usage s) (make_key args kw2)) as [n Hn].
  { destruct Hs as (<- & _). exact Hres. }
  destruct (usage_hit max_limit func s args kw2 n Hs Hres Hn)
    as (v' & Hv' & ->).
  rewrite Hv in Hv'. by injection Hv' as <-.
Qed.

Lemma keyword_order_independence_witness :
  let s := run_calls 2 total [([], [kw "x" 1; kw "y" 2])] empty_state in
  let r := wrapper 2 total [] [kw "y" 2; kw "x" 1] s in
  make_key [] [kw "x" 1; kw "y" 2] = make_key [] [kw "y" 2; kw "x" 1] ∧
  r.1 = Return (PInt 3) ∧ cache r.2 = cache s ∧ calls r.2 = calls s.
Proof.
  intros s r.
  destruct (keyword_order_independence [] [kw "x" 1; kw "y" 2]
              [kw "y" 2; kw "x" 1]) as [Hkey Hhit].
  - by_evaluation.
  - apply Permutation_swap.
  - split; [exact Hkey|].
    apply (Hhit 2 total s (PInt 3)); [|reflexivity].
    apply reachable_run_calls, reachable_empty.
Defined.

(** * Further properties of the wrapper *)

(** ** Keys *)

Global Instance item_tuple_inj : Inj (=) (=) item_tuple.
Proof. intros [n1 v1] [n2 v2]. unfold item_tuple. simpl. congruence. Qed.

Lemma make_key_inj args1 kwargs1 args2 kwargs2 :
  make_key args1 kwargs1 = make_key args2 kwargs2 →
  args1 = args2 ∧ kwargs1 ≡ₚ kwargs2.
Proof.
  unfold make_key. intros [= Hargs Hitems]. split; [done|].
  apply (inj (fmap item_tuple)) in Hitems.
  by rewrite <-(sorted_items_Permutation kwargs1), Hitems,
    sorted_items_Permutation.
Qed.

Lemma hashable_item_tuples (items : kwargs_t) :
  forallb hashable (item_tuple <$> items) = forallb (λ it, hashable it.2) items.
Proof.
  induction items as [|[n v] items IH]; [done|].
  cbn [fmap list_fmap forallb]. rewrite <-IH. unfold item_tuple. simpl.
  by rewrite andb_true_r.
Qed.

Lemma forallb_true_Forall {A} (f : A → bool) (l : list A) :
  forallb f l = true ↔ Forall (λ x, f x = true) l.
Proof.
  induction l as [|x l IH]; simpl.
  - split; [constructor | done].
  - rewrite andb_true_iff, Forall_cons, IH. done.
Qed.

Lemma hashable_make_key args kwargs :
  hashable (make_key args kwargs) = true ↔
  Forall (λ v, hashable v = true) args ∧
  Forall (λ it, hashable it.2 = true) kwargs.
Proof.
  unfold make_key. cbn [hashable forallb].
  rewrite andb_true_r, andb_true_iff, hashable_item_tuples.
  rewrite !forallb_true_Forall.
  by rewrite (sorted_items_Permutation kwargs).
Qed.



(** X2 (which calls are unkeyable): the key is hashable exactly when every
    positional argument and every keyword value is; a call with an
    unhashable argument anywhere raises [TypeError] and changes nothing. *)
Theorem unhashable_argument_raises (max_limit : Z) (func : func_t)
    (s : lfu_state) (args : list pyval) (kwargs : kwargs_t) :
  (hashable (make_key args kwargs) = true ↔
     Forall (λ v, hashable v = true) (args ++ kwargs.*2)) ∧
  (Exists (λ v, hashable v = false) (args ++ kwargs.*2) →
     wrapper max_limit func args kwargs s = (Raise TypeError, s)).
Proof.
  assert (hashable (make_key args kwargs) = true ↔
          Forall (λ v, hashable v = true) (args ++ kwargs.*2)) as Hiff.
  { rewrite hashable_make_key, Forall_app, Forall_fmap. done. }
  split; [done|]. intros Hex. apply wrapper_unhashable.
  apply not_true_is_false. intros Hh%Hiff.
  apply Exists_exists in Hex as (v & Hin & Hv).
  eapply Forall_forall in Hh; [|done]. congruence.
Qed.

Lemma unhashable_argument_raises_witness :
  wrapper 64 total [PInt 1] [("x", PList [])] empty_state =
    (Raise TypeError, empty_state).
Proof.
  apply unhashable_argument_raises. apply Exists_cons_tl, Exists_cons_hd.
  reflexivity.
Defined.

(** ** When the wrapped function runs, and what the cache holds *)

Section provenance.
Variable max_limit : Z.
Variable func : func_t.
Implicit Types (s : lfu_state) (args : list pyval) (kwargs : kwargs_t).

Lemma calls_wrapper s args kwargs :
  consistent s →
  calls (wrapper max_limit func args kwargs s).2 =
    if hashable (make_key args kwargs) &&
       negb (dict_contains (cache s) (make_key args kwargs))
    then calls s ++ [(args, kwargs)] else calls s.
Proof.
  intros Hs. unfold dict_contains.
  destruct (wrapper_call_case max_limit func s args kwargs Hs)
    as [Hh|v n Hh Hc|e Hh Hc|r Hh Hc|r Hh Hc|r k v n Hh Hc];
    unfold logged; cbn [snd calls]; by rewrite Hh, ?Hc.
Qed.

Lemma dict_get_delete_Some {V} (d : list (pyval * V)) k0 k v :
  NoDup (dict_keys d) →
  dict_get (dict_delete d k0) k = Some v → dict_get d k = Some v.
Proof.
  intros Hnd. destruct (decide (k = k0)) as [->|Hne].
  - intros Hin%dict_get_Some_elem. rewrite dict_keys_delete in Hin.
    by apply not_elem_of_remove_key in Hin.
  - by rewrite dict_get_delete_ne.
Qed.

Lemma sound_wrapper s args kwargs :
  consistent s → sound func s →
  sound func (wrapper max_limit func args kwargs s).2.
Proof.
  intros Hs Hsound. pose proof Hs as (Hkeys & Hnd & _).
  assert (∀ k v, dict_get (cache s) k = Some v →
            ∃ c, c ∈ calls s ++ [(args, kwargs)] ∧
                 make_key c.1 c.2 = k ∧ func c.1 c.2 = Return v) as Hold.
  { intros k v (c & Hin & Hc)%Hsound. exists c. split; [|done].
    apply elem_of_app. by left. }
  assert (∀ r, func args kwargs = Return r →
            ∃ c, c ∈ calls s ++ [(args, kwargs)] ∧
                 make_key c.1 c.2 = make_key args kwargs ∧
                 func c.1 c.2 = Return r) as Hnew.
  { intros r Hf. exists (args, kwargs). split; [|done].
    apply elem_of_app. right. by apply list_elem_of_singleton. }
  destruct (wrapper_call_case max_limit func s args kwargs Hs)
    as [|v n Hh Hc Hu|e Hh Hc Hf|r Hh Hc Hf Hroom|r Hh Hc Hf Hfull Hu
        |r victim v n Hh Hc Hf Hfull Hmin Hv Hn];
    unfold sound, logged; cbn [snd cache calls]; try done.
  - intros k w. rewrite dict_get_setitem.
    destruct (decide (k = make_key args kwargs)) as [->|_]; [|by apply Hold].
    intros [= <-]. by apply Hnew.
  - intros k w. rewrite dict_get_setitem.
    destruct (decide (k = make_key args kwargs)) as [->|_].
    + intros [= <-]. by apply Hnew.
    + intros Hk%dict_get_delete_Some; [by apply Hold | by rewrite Hkeys].
Qed.

Lemma sound_reachable s : reachable max_limit func s → sound func s.
Proof.
  induction 1 as [|s args kwargs Hs IH]; [done|].
  apply sound_wrapper; [by eapply reachable_consistent | done].
Qed.

Lemma returned_value_sound s args kwargs v :
  consistent s → sound func s →
  (wrapper max_limit func args kwargs s).1 = Return v →
  ∃ c, c ∈ calls (wrapper max_limit func args kwargs s).2 ∧
       make_key c.1 c.2 = make_key args kwargs ∧ func c.1 c.2 = Return v.
Proof.
  intros Hs Hsound Hret.
  pose proof (sound_wrapper s args kwargs Hs Hsound) as Hsound'.
  apply Hsound'. revert Hret.
  destruct (wrapper_call_case max_limit func s args kwargs Hs)
    as [|v' n Hh Hc Hu| | | |]; cbn [fst snd cache]; try done.
  - by intros [= <-].
  - intros [= <-]. by rewrite dict_get_setitem, decide_True.
  - intros [= <-]. by rewrite dict_get_setitem, decide_True.
Qed.

Lemma positive_limit_outcome s args kwargs :
  consistent s → sound func s → respects_keys func →
  0 < max_limit →
  hashable (make_key args kwargs) = true →
  (wrapper max_limit func args kwargs s).1 = func args kwargs.
Proof.
  intros Hs Hsound Hresp Hpos Hh. pose proof Hs as (Hkeys & _).
  destruct (wrapper_call_case max_limit func s args kwargs Hs)
    as [|v n _ Hc Hu|e _ Hc Hf|r _ Hc Hf Hroom|r _ Hc Hf Hfull Hu
        |r victim v n _ Hc Hf Hfull Hmin Hv Hn];
    cbn [fst]; try congruence.
  - destruct (Hsound _ _ Hc) as (c & _ & Hkey & Hf).
    by rewrite <-(Hresp _ _ _ _ Hkey).
  - exfalso. assert (dict_keys (cache s) = []) as Hnil by (by rewrite Hkeys, Hu).
    unfold dict_len in Hfull. rewrite <-dict_keys_length, Hnil in Hfull.
    simpl in Hfull. lia.
Qed.
End provenance.

Lemma quotient_respects_keys : respects_keys quotient.
Proof.
  intros args kwargs args' kwargs' [<- Hperm]%make_key_inj.
  unfold quotient. destruct kwargs as [|it kwargs].
  - by apply Permutation_nil in Hperm as ->.
  - destruct kwargs' as [|it' kwargs']; [|by destruct args as [|[] []]].
    symmetry in Hperm. by apply Permutation_nil in Hperm.
Qed.

(** X3 (when the function runs): a call invokes the wrapped function
    exactly when its key is hashable and has no entry in the cache, and
    then once; a hit and an unkeyable call never invoke it. *)
Theorem invoked_exactly_on_miss (max_limit : Z) (func : func_t)
    (s : lfu_state) (args : list pyval) (kwargs : kwargs_t) :
  reachable max_limit func s →
  calls (wrapper max_limit func args kwargs s).2 =
    if hashable (make_key args kwargs) &&
       negb (dict_contains (cache s) (make_key args kwargs))
    then calls s ++ [(args, kwargs)] else calls s.
Proof. intros Hs%reachable_consistent. by apply calls_wrapper. Qed.

Lemma invoked_exactly_on_miss_witness :
  let s := run_calls 2 quotient [([PInt 4], [])] empty_state in
  calls (wrapper 2 quotient [PInt 4] [] s).2 = calls s ∧
  calls (wrapper 2 quotient [PInt 5] [] s).2 = calls s ++ [([PInt 5], [])].
Proof.
  intros s.
  assert (reachable 2 quotient s) as Hs
    by (apply reachable_run_calls, reachable_empty).
  split.
  - exact (invoked_exactly_on_miss 2 quotient s [PInt 4] [] Hs).
  - exact (invoked_exactly_on_miss 2 quotient s [PInt 5] [] Hs).
Defined.

(** X4 (returned values are genuine): whenever a call returns a value, hit
    or miss, the wrapped function returned that very value on a logged
    invocation whose arguments build the same key. *)
Theorem returned_value_was_computed (max_limit : Z) (func : func_t)
    (s : lfu_state) (args : list pyval) (kwargs : kwargs_t) (v : pyval) :
  reachable max_limit func s →
  (wrapper max_limit func args kwargs s).1 = Return v →
  ∃ c, c ∈ calls (wrapper max_limit func args kwargs s).2 ∧
       make_key c.1 c.2 = make_key args kwargs ∧ func c.1 c.2 = Return v.
Proof.
  intros Hs. apply returned_value_sound;
    [by eapply reachable_consistent | by eapply sound_reachable].
Qed.

Lemma returned_value_was_computed_witness :
  let s := run_calls 2 total [([], [kw "x" 1; kw "y" 2])] empty_state in
  ∃ c, c ∈ calls (wrapper 2 total [] [kw "y" 2; kw "x" 1] s).2 ∧
       make_key c.1 c.2 = make_key [] [kw "y" 2; kw "x" 1] ∧
       total c.1 c.2 = Return (PInt 3).
Proof.
  intros s. apply returned_value_was_computed; [|reflexivity].
  apply reachable_run_calls, reachable_empty.
Defined.

(** X5 (transparency): when the wrapped function gives equal outcomes to
    calls with equal keys and [max_limit] is positive, every call with a
    hashable key has the outcome of the function itself, value or error,
    whatever the cache holds. *)
Theorem wrapper_agrees_with_function (max_limit : Z) (func : func_t)
    (s : lfu_state) (args : list pyval) (kwargs : kwargs_t) :
  respects_keys func →
  0 < max_limit →
  reachable max_limit func s →
  hashable (make_key args kwargs) = true →
  (wrapper max_limit func args kwargs s).1 = func args kwargs.
Proof.
  intros Hresp Hpos Hs Hh. apply positive_limit_outcome; try done.
  - by eapply reachable_consistent.
  - by eapply sound_reachable.
Qed.

Lemma wrapper_agrees_with_function_witness :
  let s := run_calls 2 quotient
             [([PInt 1], []); ([PInt 2], []); ([PInt 0], []); ([PInt 5], [])]
             empty_state in
  (wrapper 2 quotient [PInt 2] [] s).1 = quotient [PInt 2] [] ∧
  (wrapper 2 quotient [PInt 0] [] s).1 = quotient [PInt 0] [].
Proof.
  intros s.
  assert (reachable 2 quotient s) as Hs
    by (apply reachable_run_calls, reachable_empty).
  split; apply wrapper_agrees_with_function;
    [apply quotient_respects_keys | lia | exact Hs | reflexivity
    |apply quotient_respects_keys | lia | exact Hs | reflexivity].
Defined.

(** ** Size and counters *)

Section size_and_counters.
Variable max_limit : Z.
Variable func : func_t.
Implicit Types (s : lfu_state) (args : list pyval) (kwargs : kwargs_t).

Lemma dict_len_setitem_new {V} (d : list (pyval * V)) k v :
  dict_get d k = None → dict_len (dict_setitem d k v) = dict_len d + 1.
Proof.
  intros Hnew%dict_get_None. unfold dict_len.
  rewrite <-!dict_keys_length, dict_keys_setitem. unfold add_key.
  rewrite decide_False by done. rewrite length_app. simpl. lia.
Qed.

Lemma dict_len_wrapper s args kwargs :
  consistent s →
  dict_len (cache s) ≤ dict_len (cache (wrapper max_limit func args kwargs s).2)
    ≤ dict_len (cache s) + 1.
Proof.
  intros Hs. pose proof Hs as (Hkeys & Hnd & _).
  destruct (wrapper_call_case max_limit func s args kwargs Hs)
    as [|v n Hh Hc Hu|e Hh Hc Hf|r Hh Hc Hf Hroom|r Hh Hc Hf Hfull Hu
        |r victim v n Hh Hc Hf Hfull Hmin Hv Hn];
    unfold logged; cbn [snd cache]; try lia.
  - rewrite dict_len_setitem_new by done. lia.
  - rewrite dict_len_setitem_new.
    + rewrite (dict_len_delete _ _ _ Hv). lia.
    + apply dict_get_None. rewrite dict_keys_delete.
      intros Hin%elem_of_remove_key. by apply dict_get_None in Hc.
Qed.

Lemma capacity_reachable s :
  0 < max_limit → reachable max_limit func s →
  dict_len (cache s) ≤ max_limit.
Proof.
  intros Hpos. induction 1 as [|s args kwargs Hs IH].
  - unfold dict_len. simpl. lia.
  - apply capacity_wrapper; [done | by eapply reachable_consistent | done].
Qed.

Lemma Forall_values_setitem {V} (Q : V → Prop) (d : list (pyval * V)) k v :
  Forall (λ x, Q x.2) d → Q v → Forall (λ x, Q x.2) (dict_setitem d k v).
Proof.
  intros Hd Hv. induction Hd as [|[k' v'] d Hx Hd IH]; simpl.
  - by repeat constructor.
  - destruct (decide (k = k')); constructor; done.
Qed.

Lemma Forall_dict_delete {V} (P : pyval * V → Prop) (d : list (pyval * V)) k :
  Forall P d → Forall P (dict_delete d k).
Proof.
  induction 1 as [|[k' v'] d Hx Hd IH]; simpl; [constructor|].
  destruct (decide (k = k')); [done | by constructor].
Qed.

Lemma counters_positive_wrapper s args kwargs :
  consistent s →
  Forall (λ x, 1 ≤ x.2) (usage s) →
  Forall (λ x, 1 ≤ x.2) (usage (wrapper max_limit func args kwargs s).2).
Proof.
  intros Hs Hpos.
  destruct (wrapper_call_case max_limit func s args kwargs Hs)
    as [|v n Hh Hc Hu|e Hh Hc Hf|r Hh Hc Hf Hroom|r Hh Hc Hf Hfull Hu
        |r victim v n Hh Hc Hf Hfull Hmin Hv Hn];
    unfold logged; cbn [snd usage]; try done.
  - apply (Forall_values_setitem (λ n, 1 ≤ n)); [done|].
    apply dict_get_pair_elem in Hu.
    eapply Forall_forall in Hpos; [|done]. simpl in Hpos. lia.
  - by apply (Forall_values_setitem (λ n, 1 ≤ n)).
  - apply (Forall_values_setitem (λ n, 1 ≤ n)); [|done].
    by apply Forall_dict_delete.
Qed.

Lemma dict_get_middle {V} (d1 d2 : list (pyval * V)) k v :
  NoDup (dict_keys (d1 ++ (k, v) :: d2)) →
  dict_get (d1 ++ (k, v) :: d2) k = Some v.
Proof.
  unfold dict_keys. rewrite fmap_app, fmap_cons. simpl.
  intros [Hd1 [Hnot _]]%NoDup_app.
  induction d1 as [|[k1 v1] d1 IH]; simpl.
  - by rewrite decide_True.
  - rewrite decide_False.
    + apply IH; [by apply NoDup_cons in Hd1 as [_ ?]|].
      intros x Hx. apply Hnot. csimpl. by right.
    + intros ->. apply (Hnot k1); csimpl; left.
Qed.

(** The first least used key has the smallest counter of all. *)
Lemma first_least_used_le u k n k' n' :
  NoDup (dict_keys u) →
  first_least_used u k →
  dict_get u k = Some n → dict_get u k' = Some n' → n ≤ n'.
Proof.
  intros Hnd (m & before & after & -> & Hbefore & Hafter) Hk Hk'.
  rewrite dict_get_middle in Hk by done. injection Hk as ->.
  apply dict_get_pair_elem in Hk'.
  apply elem_of_app in Hk' as [Hin|Hin].
  - eapply Forall_forall in Hbefore; [|done]. simpl in Hbefore. lia.
  - apply elem_of_cons in Hin as [[= _ ->]|Hin]; [lia|].
    eapply Forall_forall in Hafter; [|done]. done.
Qed.
End size_and_counters.

(** X6 (the cache never shrinks): a call leaves the number of entries as it
    is or raises it by one, never lowers it; so, with a positive
    [max_limit], a cache that has filled up holds exactly [max_limit]
    entries after every later call. *)
Theorem cache_never_shrinks (max_limit : Z) (func : func_t)
    (s : lfu_state) (args : list pyval) (kwargs : kwargs_t) :
  reachable max_limit func s →
  let s' := (wrapper max_limit func args kwargs s).2 in
  dict_len (cache s) ≤ dict_len (cache s') ≤ dict_len (cache s) + 1 ∧
  (0 < max_limit → dict_len (cache s) = max_limit →
   dict_len (cache s') = max_limit).
Proof.
  intros Hs s'. pose proof (reachable_consistent _ _ _ Hs) as Hcons.
  pose proof (dict_len_wrapper max_limit func s args kwargs Hcons) as Hlen.
  fold s' in Hlen. split; [done|]. intros Hpos Hfull.
  pose proof (capacity_reachable max_limit func s' Hpos) as Hcap.
  specialize (Hcap (reachable_call _ _ _ _ _ Hs)). lia.
Qed.

Lemma cache_never_shrinks_witness :
  let s := run_calls 2 quotient [([PInt 1], []); ([PInt 2], [])] empty_state in
  dict_len (cache (wrapper 2 quotient [PInt 3] [] s).2) = 2.
Proof.
  intros s.
  destruct (cache_never_shrinks 2 quotient s [PInt 3] []) as [_ Hfull].
  { apply reachable_run_calls, reachable_empty. }
  apply Hfull; [lia | reflexivity].
Defined.

(** X7 (counters are positive): in every state of the cache, each counter
    in [usage] is at least 1. *)
Theorem counters_positive (max_limit : Z) (func : func_t) (s : lfu_state)
    (k : pyval) (n : Z) :
  reachable max_limit func s →
  dict_get (usage s) k = Some n → 1 ≤ n.
Proof.
  intros Hs.
  assert (Forall (λ x, 1 ≤ x.2) (usage s)) as Hall.
  { induction Hs as [|s args kwargs Hs IH]; [constructor|].
    apply counters_positive_wrapper;
      [exact (reachable_consistent _ _ _ Hs) | exact IH]. }
  intros Hk%dict_get_pair_elem. rewrite Forall_forall in Hall.
  exact (Hall _ Hk).
Qed.

Lemma counters_positive_witness :
  let s := run_calls 2 quotient [([PInt 1], []); ([PInt 1], [])] empty_state in
  dict_get (usage s) (make_key [PInt 1] []) = Some 2 ∧ 1 ≤ 2.
Proof.
  intros s. split; [reflexivity|].
  apply (counters_positive 2 quotient s (make_key [PInt 1] []) 2).
  - apply reachable_run_calls, reachable_empty.
  - reflexivity.
Defined.

(** X8 (hits protect an entry): a resident key whose counter is strictly
    larger than the counter of some other resident key is still resident
    after any call; only a key with the smallest counter can be evicted. *)
Theorem more_used_key_survives (max_limit : Z) (func : func_t)
    (s : lfu_state) (args : list pyval) (kwargs : kwargs_t)
    (k k' : pyval) (n n' : Z) :
  reachable max_limit func s →
  dict_get (usage s) k = Some n →
  dict_get (usage s) k' = Some n' →
  n' < n →
  resident (wrapper max_limit func args kwargs s).2 k.
Proof.
  intros Hs%reachable_consistent Hk Hk' Hlt.
  pose proof Hs as (Hkeys & Hnd & _).
  destruct (decide (resident (wrapper max_limit func args kwargs s).2 k))
    as [|Hout]; [done|].
  exfalso.
  assert (evicts s (wrapper max_limit func args kwargs s).2 k) as Hev.
  { split; [|done]. unfold resident. rewrite Hkeys.
    by eapply dict_get_Some_elem. }
  apply evicted_first_least_used in Hev; [|done].
  pose proof (first_least_used_le _ _ _ _ _ Hnd Hev Hk Hk'). lia.
Qed.

Lemma more_used_key_survives_witness :
  let s := run_calls 2 quotient [([PInt 1], []); ([PInt 2], []); ([PInt 1], [])]
             empty_state in
  resident (wrapper 2 quotient [PInt 3] [] s).2 (make_key [PInt 1] []).
Proof.
  intros s.
  apply (more_used_key_survives 2 quotient s [PInt 3] []
           (make_key [PInt 1] []) (make_key [PInt 2] []) 2 1).
  - apply reachable_run_calls, reachable_empty.
  - reflexivity.
  - reflexivity.
  - lia.
Defined.

(** * [fetch_url] and [main] *)

Lemma substring_prefix m (s : string) :
  String.prefix (String.substring 0 m s) s = true.
Proof.
  revert m. induction s as [|c s IH]; intros [|m]; simpl; try done.
  destruct (Ascii.ascii_dec c c); [apply IH | done].
Qed.

Lemma length_substring m (s : string) :
  String.length (String.substring 0 m s) = (m `min` String.length s)%nat.
Proof.
  revert m. induction s as [|c s IH]; intros [|m]; simpl; try done.
  by rewrite IH.
Qed.

Lemma substring_all m (s : string) :
  (String.length s ≤ m)%nat → String.substring 0 m s = s.
Proof.
  revert m. induction s as [|c s IH]; intros [|m]; simpl; try done; try lia.
  intros Hle. rewrite IH; [done | lia].
Qed.

Lemma resident_after max_limit func s args kwargs k :
  consistent s →
  resident (wrapper max_limit func args kwargs s).2 k →
  resident s k ∨ k = make_key args kwargs.
Proof.
  intros Hs.
  destruct (wrapper_call_case max_limit func s args kwargs Hs)
    as [| | | | |r victim v n]; unfold resident, logged; cbn [snd cache];
    rewrite ?dict_keys_setitem, ?dict_keys_delete; auto.
  - intros [->|Hin]%elem_of_add_key; auto.
  - intros [->|Hin%elem_of_remove_key]%elem_of_add_key; auto.
Qed.

(** X10 (how much of the content [fetch_url] returns): for a request that
    succeeds and an integer [first_n], the undecorated function returns a
    prefix of the content: all of it when [first_n] is 0, the first
    [first_n] bytes (or all, if there are fewer) when it is positive, and
    all but the last [-first_n] bytes when it is negative. *)
Theorem fetch_url_returns_prefix (requests_get : pyval → outcome string)
    (url : pyval) (content : string) (n : Z) :
  requests_get url = Return content →
  ∃ r,
    fetch_url_func requests_get [url; PInt n] [] = Return (PStr r) ∧
    String.prefix r content = true ∧
    Z.of_nat (String.length r) =
      (if n =? 0 then Z.of_nat (String.length content)
       else if 0 <? n then n `min` Z.of_nat (String.length content)
       else 0 `max` (Z.of_nat (String.length content) + n)) ∧
    (n = 0 ∨ Z.of_nat (String.length content) ≤ n → r = content).
Proof.
  intros Hreq. unfold fetch_url_func. cbn [bind_fetch_url keywords_among forallb].
  rewrite Hreq. cbn [truthy]. destruct (Z.eqb_spec n 0) as [->|Hne]; cbn [negb].
  - exists content. split_and!; [done | | done | done].
    rewrite <-(substring_all (String.length content) content) at 1 by lia.
    apply substring_prefix.
  - exists (slice_to n content). unfold slice_to. split_and!.
    + done.
    + apply substring_prefix.
    + rewrite length_substring.
      destruct (Z.leb_spec 0 n), (Z.ltb_spec 0 n); lia.
    + intros [?|Hle]; [done|]. apply substring_all.
      destruct (Z.leb_spec 0 n); lia.
Qed.

Lemma fetch_url_returns_prefix_witness :
  ∃ r,
    fetch_url_func (λ _, Return "0123456789") [PStr test_url; PInt (-3)] []
      = Return (PStr r) ∧
    String.prefix r "0123456789" = true ∧
    Z.of_nat (String.length r) = 7 ∧
    (-3 = 0 ∨ 10 ≤ -3 → r = "0123456789").
Proof.
  apply (fetch_url_returns_prefix (λ _, Return "0123456789")
           (PStr test_url) "0123456789" (-3)).
  reflexivity.
Defined.

(** X11 (one call, two spellings, two entries): [fetch_url(url, n)] and
    [fetch_url(url, first_n=n)] bind the same parameters, so the function
    does the same for both, but they build different keys: after the
    positional call the keyword call is still a miss and runs the function
    (the request) again, unless that spelling was cached before. *)
Theorem fetch_url_spellings_cached_apart
    (requests_get : pyval → outcome string) (s : lfu_state) (url n : pyval) :
  hashable url = true →
  hashable n = true →
  reachable 64 (fetch_url_func requests_get) s →
  ¬ resident s (make_key [url] [("first_n", n)]) →
  let f := fetch_url requests_get in
  let s1 := (call f [url; n] [] s).2 in
  fetch_url_func requests_get [url; n] [] =
    fetch_url_func requests_get [url] [("first_n", n)] ∧
  make_key [url; n] [] ≠ make_key [url] [("first_n", n)] ∧
  calls (call f [url] [("first_n", n)] s1).2 =
    calls s1 ++ [([url], [("first_n", n)])].
Proof.
  intros Hurl Hn Hs Hmiss f s1. subst f s1. cbn [call fetch_url decorator].
  assert (make_key [url; n] [] ≠ make_key [url] [("first_n", n)]) as Hne
    by (by intros [[=] _]%make_key_inj).
  split_and!; [done | done |].
  pose proof (reachable_consistent _ _ _ Hs) as Hcons.
  rewrite calls_wrapper by (by apply consistent_wrapper).
  assert (hashable (make_key [url] [("first_n", n)]) = true) as ->.
  { apply hashable_make_key. by repeat constructor. }
  assert (dict_contains
            (cache (wrapper 64 (fetch_url_func requests_get) [url; n] [] s).2)
            (make_key [url] [("first_n", n)]) = false) as ->; [|done].
  apply dict_contains_false. intros [Hin|Heq]%resident_after; [|done|done].
  by apply Hmiss.
Qed.

Lemma fetch_url_spellings_cached_apart_witness :
  let f := fetch_url (λ _, Return "0123456789") in
  let s1 := (call f [PStr test_url; PInt 4] [] (store f)).2 in
  calls (call f [PStr test_url] [("first_n", PInt 4)] s1).2 =
    calls s1 ++ [([PStr test_url], [("first_n", PInt 4)])].
Proof.
  intros f s1.
  destruct (fetch_url_spellings_cached_apart (λ _, Return "0123456789")
              empty_state (PStr test_url) (PInt 4)) as (_ & _ & Hcalls).
  - reflexivity.
  - reflexivity.
  - apply reachable_empty.
  - by_evaluation.
  - exact Hcalls.
Defined.

(** X12 ([main] asks the network once): if the request for [test_url]
    succeeds, [main] returns after one invocation of the function; both
    contents it prints are the first 150 bytes of the response, the cache
    it prints holds that single entry and its counter is 2.  If the request
    raises, [main] raises the same error before printing anything and the
    cache stays empty. *)
Theorem main_requests_once (requests_get : pyval → outcome string) :
  let this_call := ([PStr test_url], [("first_n", PInt 150)]) in
  let key := make_key this_call.1 this_call.2 in
  match requests_get (PStr test_url) with
  | Return content =>
      let body := PStr (slice_to 150 content) in
      main requests_get (store (fetch_url requests_get)) =
        (Return (),
         LfuState [(key, body)] [(key, 2)] [this_call],
         [[Text "Fetched content (first 150 bytes):"]; [Obj body];
          [Text "Cached content (first 150 bytes):"]; [Obj body];
          [Text "Cache keys:"; CacheDict [(key, body)]];
          [Text "Usage counts:"; UsageDict [(key, 2)]]])
  | Raise e =>
      main requests_get (store (fetch_url requests_get)) =
        (Raise e, LfuState [] [] [this_call], [])
  end.
Proof.
  intros this_call key.
  destruct (requests_get (PStr test_url)) as [content|e] eqn:Hreq.
  - intros body. unfold main. cbn [call fetch_url decorator store].
    rewrite (wrapper_miss_room 64 _ empty_state _ _ body);
      [|reflexivity|reflexivity| |reflexivity]; cycle 1.
    { unfold fetch_url_func. cbn [bind_fetch_url keywords_among]. simpl.
      by rewrite Hreq. }
    cbn [cache usage calls empty_state dict_setitem app].
    rewrite (wrapper_hit 64 _ _ _ _ body 1);
      [|reflexivity| |]; cycle 1.
    { cbn [cache dict_get]. by rewrite decide_True. }
    { cbn [usage dict_get]. by rewrite decide_True. }
    cbn [cache usage calls dict_setitem]. by rewrite decide_True.
  - unfold main. cbn [call fetch_url decorator store].
    rewrite (wrapper_miss_raise 64 _ empty_state _ _ e);
      [done|reflexivity|reflexivity|].
    unfold fetch_url_func. cbn [bind_fetch_url keywords_among]. simpl.
    by rewrite Hreq.
Qed.

(** * [measure_memory] and [generate_list] *)

(** The measuring decorator is transparent, but not exception safe:
    the decorated function has the outcome of the function itself; when
    the function returns, exactly one report with its name is printed and
    tracing is stopped; when it raises, nothing is printed and tracing is
    left running, whatever it was before the call. *)
Lemma measure_memory_outcome (name : string) (func : func_t)
    (traced_memory : list pyval → kwargs_t → Z * Z)
    (args : list pyval) (kwargs : kwargs_t) (t : tracer) :
  let r := measure_memory name func traced_memory args kwargs t in
  r.1 = func args kwargs ∧
  match func args kwargs with
  | Return _ =>
      tracing r.2 = false ∧
      ∃ current peak, printed r.2 = printed t ++ [Report name current peak]
  | Raise _ => tracing r.2 = true ∧ printed r.2 = printed t
  end.
Proof.
  intros r. subst r. unfold measure_memory.
  destruct (func args kwargs) as [result|e]; simpl; [|done].
  split; [done|]. split; [done|]. by eexists _, _.
Qed.

(** X13 (what [generate_list] builds): for an integer [n], the decorated
    [generate_list(n)] returns the list [0, 1, ..., n - 1]: it has
    [max(n, 0)] elements and its [i]-th element is [i]; this holds under
    the decorator, which then has printed one report and stopped tracing.
    For an argument that is not an integer it raises [TypeError] and
    leaves tracing on. *)
Theorem generate_list_contents
    (traced_memory : list pyval → kwargs_t → Z * Z) (t : tracer) (n : pyval) :
  let r := generate_list traced_memory [n] [] t in
  match n with
  | PInt z =>
      ∃ items,
        r.1 = Return (PList items) ∧
        Z.of_nat (length items) = 0 `max` z ∧
        (∀ i : nat, Z.of_nat i < z → items !! i = Some (PInt (Z.of_nat i))) ∧
        tracing r.2 = false ∧ length (printed r.2) = S (length (printed t))
  | _ => r = (Raise TypeError, Tracer true (printed t))
  end.
Proof.
  intros r. subst r. unfold generate_list, measure_memory. simpl.
  destruct n as [|z|s|items|items]; simpl; try done.
  exists (PInt <$> seqZ 0 z). split_and!; try done.
  - rewrite length_fmap, length_seqZ. lia.
  - intros i Hi. rewrite list_lookup_fmap, lookup_seqZ_lt by done.
    simpl. repeat f_equal; lia.
  - rewrite length_app. simpl. lia.
Qed.

(** * [generate_password] *)

Section random_lemmas.
Variable draw : nat → nat.

Lemma R_bind_Return {A B} (f : A → R B) (m : R A) i a i' :
  m i = (Return a, i') → (m ≫= f) i = f a i'.
Proof. unfold mbind, R_bind. by intros ->. Qed.

Lemma randint_bounds (a b : Z) i :
  a ≤ b → ∃ v, randint draw a b i = (Return v, S i) ∧ a ≤ v ≤ b.
Proof.
  intros Hab. unfold randint. destruct (Z.ltb_spec b a); [lia|].
  exists (a + Z.of_nat (draw i `mod` Z.to_nat (b - a + 1))%nat).
  split; [reflexivity|].
  assert (draw i `mod` Z.to_nat (b - a + 1) < Z.to_nat (b - a + 1))%nat as Hk
    by (apply Nat.mod_upper_bound; lia).
  revert Hk. generalize (draw i `mod` Z.to_nat (b - a + 1))%nat. lia.
Qed.

Lemma choice_elem {A} (seq : list A) i :
  seq ≠ [] → ∃ x, choice draw seq i = (Return x, S i) ∧ x ∈ seq.
Proof.
  intros Hne. unfold choice. destruct seq as [|x0 seq]; [done|].
  set (l := x0 :: seq).
  destruct (lookup_lt_is_Some_2 l (draw i `mod` length l)) as [x Hx].
  { apply Nat.mod_upper_bound. done. }
  exists x. split; [|by eapply list_elem_of_lookup_2].
  unfold mbind, R_bind, randbelow. by rewrite Hx.
Qed.

Lemma choices_elems {A} (seq : list A) n i :
  seq ≠ [] →
  ∃ xs, choices draw seq n i = (Return xs, (i + n)%nat) ∧
        length xs = n ∧ Forall (λ x, x ∈ seq) xs.
Proof.
  intros Hne. revert i. induction n as [|n IH]; intros i.
  - exists []. rewrite Nat.add_0_r. by repeat split.
  - destruct (choice_elem seq i Hne) as (x & Hx & Hin).
    destruct (IH (S i)) as (xs & Hxs & Hlen & Hall).
    exists (x :: xs). simpl. rewrite (R_bind_Return _ _ _ _ _ Hx).
    rewrite (R_bind_Return _ _ _ _ _ Hxs). split_and!.
    + unfold mret, R_ret. f_equal. lia.
    + simpl. by rewrite Hlen.
    + by constructor.
Qed.

Lemma insert_Permutation_delete {A} (x : list A) i a b :
  x !! i = Some a → <[i:=b]> x ≡ₚ b :: delete i x.
Proof.
  intros Hi. rewrite insert_take_drop by (by eapply lookup_lt_Some).
  rewrite delete_take_drop. by rewrite Permutation_middle.
Qed.

Lemma swap_Permutation {A} (x : list A) i j a b :
  x !! i = Some a → x !! j = Some b → <[j:=a]> (<[i:=b]> x) ≡ₚ x.
Proof.
  intros Hi Hj. destruct (decide (i = j)) as [->|Hne].
  - assert (b = a) as -> by congruence.
    by rewrite !(list_insert_id x j a).
  - assert (<[i:=b]> x !! j = Some b) as Hj'
      by (by rewrite list_lookup_insert_ne).
    etrans; [apply (insert_Permutation_delete _ _ _ _ Hj')|].
    etrans; [|symmetry; apply (delete_Permutation x i a Hi)].
    apply perm_skip, (Permutation_cons_inv (a := b)).
    etrans; [symmetry; apply (delete_Permutation _ _ _ Hj')|].
    by apply (insert_Permutation_delete x i a b).
Qed.

Lemma shuffle_from_Permutation {A} n (x : list A) i :
  (n ≤ length x - 1)%nat →
  ∃ y, shuffle_from draw n x i = (Return y, (i + n)%nat) ∧ y ≡ₚ x.
Proof.
  revert x i. induction n as [|n IH]; intros x i Hn.
  - exists x. by rewrite Nat.add_0_r.
  - assert (∃ j, randbelow draw (S (S n)) i = (Return j, S i) ∧
                 (j < S (S n))%nat) as (j & Hrb & Hj).
    { eexists. split; [reflexivity|]. by apply Nat.mod_upper_bound. }
    destruct (lookup_lt_is_Some_2 x (S n)) as [a Ha]; [lia|].
    destruct (lookup_lt_is_Some_2 x j) as [b Hb]; [lia|].
    pose proof (swap_Permutation x (S n) j a b Ha Hb) as Hperm.
    destruct (IH (<[j:=a]> (<[S n:=b]> x)) (S i)) as (y & Hy & Hperm').
    { rewrite !length_insert. lia. }
    exists y. split; [|by rewrite Hperm'].
    cbn [shuffle_from]. rewrite (R_bind_Return _ _ _ _ _ Hrb).
    unfold swap_items. rewrite Ha, Hb.
    rewrite (R_bind_Return _ (mret (<[j:=a]> (<[S n:=b]> x))) (S i) _ (S i)
               eq_refl).
    rewrite Hy. f_equal. lia.
Qed.
End random_lemmas.

(** One step of a computation in [R] whose result is known. *)
Ltac R_step H := etrans; [exact (R_bind_Return _ _ _ _ _ H)|]; cbv beta.

(** [random.shuffle] permutes: for every generator, shuffling a list
    returns (it never raises) a permutation of that list, after one draw
    for each position but the first. *)
Lemma shuffle_permutes {A : Type} (draw : nat → nat) (x : list A) (i : nat) :
  ∃ y, shuffle draw x i = (Return y, (i + (length x - 1))%nat) ∧ y ≡ₚ x.
Proof. by apply shuffle_from_Permutation. Qed.


(** X14 (generated passwords are well formed): for every generator,
    [generate_password] returns (it never raises) a string of 10 to 20
    characters that holds at least one lowercase letter, one uppercase
    letter, one digit and one punctuation character, and nothing outside
    these four sets. *)
Theorem password_well_formed (draw : nat → nat) (i : nat) :
  ∃ password i',
    generate_password draw i = (Return password, i') ∧
    let chars := String.list_ascii_of_string password in
    (10 ≤ length chars ≤ 20)%nat ∧
    Exists (λ c, c ∈ ascii_lowercase) chars ∧
    Exists (λ c, c ∈ ascii_uppercase) chars ∧
    Exists (λ c, c ∈ digits) chars ∧
    Exists (λ c, c ∈ punctuation) chars ∧
    Forall (λ c, c ∈ all_chars) chars.
Proof.
  destruct (randint_bounds draw 10 20 i) as (len & Hlen & Hbounds); [lia|].
  destruct (choice_elem draw ascii_lowercase (S i)) as (c1 & Hc1 & Hin1);
    [done|].
  destruct (choice_elem draw ascii_uppercase (S (S i))) as (c2 & Hc2 & Hin2);
    [done|].
  destruct (choice_elem draw digits (S (S (S i)))) as (c3 & Hc3 & Hin3);
    [done|].
  destruct (choice_elem draw punctuation (S (S (S (S i)))))
    as (c4 & Hc4 & Hin4); [done|].
  destruct (choices_elems draw all_chars (Z.to_nat (len - 4))
              (S (S (S (S (S i)))))) as (rest & Hrest & Hlrest & Hall);
    [done|].
  destruct (shuffle_permutes draw ([c1; c2; c3; c4] ++ rest)
              (S (S (S (S (S i)))) + Z.to_nat (len - 4))%nat)
    as (chars & Hshuffle & Hperm).
  eexists _, _. split.
  { unfold generate_password.
    R_step Hlen. R_step Hc1. R_step Hc2. R_step Hc3. R_step Hc4.
    R_step Hrest. R_step Hshuffle. reflexivity. }
  cbv zeta. rewrite String.list_ascii_of_string_of_list_ascii.
  assert (length chars = (4 + Z.to_nat (len - 4))%nat) as Hlength.
  { rewrite (Permutation_length Hperm), length_app, Hlrest. done. }
  assert (∀ c, c ∈ chars ↔ c ∈ [c1; c2; c3; c4] ∨ c ∈ rest) as Helem.
  { intros c. rewrite <-elem_of_app. by apply elem_of_Permutation_proper. }
  assert (∀ c, c ∈ [c1; c2; c3; c4] → c ∈ chars) as Hfixed
    by (intros c ?; apply Helem; by left).
  split_and!.
  - lia.
  - lia.
  - apply Exists_exists. exists c1. split; [|done].
    apply Hfixed. apply list_elem_of_here.
  - apply Exists_exists. exists c2. split; [|done].
    apply Hfixed. do 1 apply list_elem_of_further. apply list_elem_of_here.
  - apply Exists_exists. exists c3. split; [|done].
    apply Hfixed. do 2 apply list_elem_of_further. apply list_elem_of_here.
  - apply Exists_exists. exists c4. split; [|done].
    apply Hfixed. do 3 apply list_elem_of_further. apply list_elem_of_here.
  - apply Forall_forall. intros c [Hc|Hc]%Helem.
    + unfold all_chars. rewrite !elem_of_app.
      rewrite !elem_of_cons in Hc.
      destruct Hc as [->|[->|[->|[->|Hc]]]]; auto.
      by apply elem_of_nil in Hc.
    + rewrite Forall_forall in Hall. by apply Hall.
Qed.

(** * When an entry is evicted *)

Lemma evicts_only_when_full max_limit func s args kwargs victim :
  consistent s →
  evicts s (wrapper max_limit func args kwargs s).2 victim →
  max_limit ≤ dict_len (cache s) ∧
  ¬ resident s (make_key args kwargs) ∧
  (∃ r, func args kwargs = Return r) ∧
  min_usage (usage s) = Some victim.
Proof.
  intros Hs. unfold evicts, resident.
  destruct (wrapper_call_case max_limit func s args kwargs Hs)
    as [|v n Hh Hc Hu|e|r Hh|r|r k v n Hh Hc Hf Hfull Hmin Hv Hn];
    unfold logged; cbn [snd cache]; try tauto.
  - rewrite dict_keys_setitem. intros [Hin Hout]. exfalso. apply Hout.
    apply elem_of_add_key. by right.
  - rewrite dict_keys_setitem, dict_keys_delete. intros [Hin Hout].
    destruct (decide (victim = k)) as [->|Hne].
    + split_and!; [done | by apply dict_get_None | by exists r | done].
    + exfalso. apply Hout, elem_of_add_key. right.
      by apply elem_of_remove_key_ne.
Qed.

(** X9 (eviction only makes room): a call evicts a key only if the cache
    held at least [max_limit] entries, the call was a miss and the wrapped
    function returned; and it evicts at most one key. *)
Theorem eviction_only_when_full (max_limit : Z) (func : func_t)
    (s : lfu_state) (args : list pyval) (kwargs : kwargs_t) (victim : pyval) :
  reachable max_limit func s →
  let s' := (wrapper max_limit func args kwargs s).2 in
  evicts s s' victim →
  max_limit ≤ dict_len (cache s) ∧
  ¬ resident s (make_key args kwargs) ∧
  (∃ r, func args kwargs = Return r) ∧
  (∀ k, evicts s s' k → k = victim).
Proof.
  intros Hs%reachable_consistent s' Hev.
  destruct (evicts_only_when_full _ _ _ _ _ _ Hs Hev)
    as (Hfull & Hmiss & Hret & Hmin).
  split_and!; try done. intros k Hk.
  destruct (evicts_only_when_full _ _ _ _ _ _ Hs Hk) as (_ & _ & _ & Hmin').
  congruence.
Qed.

Lemma eviction_only_when_full_witness :
  let s := run_calls 2 quotient [([PInt 1], []); ([PInt 2], [])] empty_state in
  let s' := (wrapper 2 quotient [PInt 3] [] s).2 in
  2 ≤ dict_len (cache s) ∧
  ¬ resident s (make_key [PInt 3] []) ∧
  (∃ r, quotient [PInt 3] [] = Return r) ∧
  (∀ k, evicts s s' k → k = make_key [PInt 1] []).
Proof.
  intros s s'.
  apply (eviction_only_when_full 2 quotient s [PInt 3] []).
  - apply reachable_run_calls, reachable_empty.
  - split; by_evaluation.
Defined.
